(** * BeepBot-Common: the [Role] permission engine ([src/permissions/role.ts])

    A shallow embedding of the [Role] class and of the library calls its
    methods make, followed by the properties of permission resolution.

    Strings.  A JavaScript string is a sequence of UTF-16 code units; the
    embedding uses Rocq's [string], one [ascii] per code unit, so it covers
    the strings whose code units are all below 256.

    Store.  Arrays and [Role] instances are JavaScript objects, held by
    reference.  The embedding keeps them in an explicit store: two roles (or
    the two array fields of one role) may hold the same array address, and a
    [push] through one of them is seen through the other. *)

From Stdlib Require Import Ascii String NArith Bool Lia.
From Stdlib Require Import Floats.PrimFloat.
From stdpp Require Import base option list strings.

Local Open Scope string_scope.
Local Open Scope list_scope.

(** ** JavaScript built-ins on strings and arrays *)

Module JS.

(** [String.prototype.split] with a one-character separator: the segments
    between the separators, an empty string giving one empty segment. *)
Fixpoint split (sep : ascii) (s : string) : list string :=
  match s with
  | EmptyString => [EmptyString]
  | String c rest =>
      if Ascii.eqb c sep then EmptyString :: split sep rest
      else match split sep rest with
           | seg :: segs => String c seg :: segs
           | [] => [String c EmptyString]
           end
  end.

(** [Array.prototype.join]. *)
Fixpoint join (sep : string) (segs : list string) : string :=
  match segs with
  | [] => EmptyString
  | [seg] => seg
  | seg :: more => seg +:+ sep +:+ join sep more
  end.

(** [Array.prototype.includes] on an array of strings. *)
Definition includes (arr : list string) (x : string) : bool :=
  bool_decide (x ∈ arr).

(** [Array.prototype.filter]. *)
Definition filter (f : string -> bool) (arr : list string) : list string :=
  List.filter f arr.

End JS.

(** ** lodash *)

Module Lodash.

(** [dropRight(array, n)]: the array without its last [n] elements. *)
Definition dropRight {A : Type} (arr : list A) (n : nat) : list A :=
  take (length arr - n) arr.

(** [baseUniq]: walk the values, keep one only when it is not yet in the
    result. *)
Definition uniq_step (result : list string) (value : string) : list string :=
  if JS.includes result value then result else result ++ [value].

Definition uniq (values : list string) : list string :=
  fold_left uniq_step values [].

(** [union(a, b)]: a new array of the unique values of [a] then [b], in
    order of first occurrence. *)
Definition union (a b : list string) : list string :=
  uniq (a ++ b).

End Lodash.

(** ** The regular expressions [has] builds

  [new RegExp(source, 'i').test(s)] for the sources made of pattern
  characters, [.], [*] and parentheses.  Construction raises a
  [SyntaxError] on an unbalanced parenthesis or on a [*] with nothing to
  repeat; the other syntax characters are outside the embedded fragment. *)

Module RegExp.

Inductive regex : Type :=
| Void : regex
| Eps : regex
| Chr : ascii -> regex
| Dot : regex
| Cat : regex -> regex -> regex
| Alt : regex -> regex -> regex
| Star : regex -> regex.

Inductive parsed : Type :=
| Pattern (r : regex)
| SyntaxError
| Unsupported.

(** The syntax characters the fragment does not cover. *)
Definition other_syntax_character (c : ascii) : bool :=
  existsb (Ascii.eqb c) ["\"; "^"; "$"; "+"; "?"; "["; "]"; "{"; "}"; "|"]%char.

(** An alternative is the concatenation of its terms. *)
Definition alternative (terms : list regex) : regex :=
  fold_right Cat Eps terms.

(** One pass over the source.  [cur] holds the terms of the alternative
    being read, latest first; [atom] tells whether the latest term is an
    atom that a quantifier may follow; [outer] holds the alternatives of
    the groups still open. *)
Fixpoint parse_from (src : string) (cur : list regex) (atom : bool)
    (outer : list (list regex)) : parsed :=
  match src with
  | EmptyString =>
      match outer with
      | [] => Pattern (alternative (rev cur))
      | _ :: _ => SyntaxError
      end
  | String c rest =>
      if Ascii.eqb c "(" then parse_from rest [] false (cur :: outer)
      else if Ascii.eqb c ")" then
        match outer with
        | [] => SyntaxError
        | up :: outer' =>
            parse_from rest (alternative (rev cur) :: up) true outer'
        end
      else if Ascii.eqb c "*" then
        match atom, cur with
        | true, t :: ts => parse_from rest (Star t :: ts) false outer
        | _, _ => SyntaxError
        end
      else if Ascii.eqb c "." then parse_from rest (Dot :: cur) true outer
      else if other_syntax_character c then Unsupported
      else parse_from rest (Chr c :: cur) true outer
  end.

Definition parse (src : string) : parsed := parse_from src [] false [].

(** [Canonicalize] with the [i] flag and without the [u] flag: the code
    unit of the upper-case form, when that form is a single code unit. *)
Definition Canonicalize (c : ascii) : N :=
  let n := N_of_ascii c in
  if ((97 <=? n) && (n <=? 122))%N then (n - 32)%N
  else if (n =? 181)%N then 924%N
  else if ((224 <=? n) && (n <=? 254) && negb (n =? 247))%N then (n - 32)%N
  else if (n =? 255)%N then 376%N
  else n.

Definition same_letter (c d : ascii) : bool :=
  (Canonicalize c =? Canonicalize d)%N.

(** [.] matches every code unit but the line terminators. *)
Definition line_terminator (c : ascii) : bool :=
  let n := N_of_ascii c in ((n =? 10) || (n =? 13))%N.

Fixpoint nullable (r : regex) : bool :=
  match r with
  | Void => false
  | Eps => true
  | Chr _ => false
  | Dot => false
  | Cat r1 r2 => nullable r1 && nullable r2
  | Alt r1 r2 => nullable r1 || nullable r2
  | Star _ => true
  end.

(** What is left of [r] once it has read the code unit [d]. *)
Fixpoint deriv (d : ascii) (r : regex) : regex :=
  match r with
  | Void => Void
  | Eps => Void
  | Chr c => if same_letter c d then Eps else Void
  | Dot => if line_terminator d then Void else Eps
  | Cat r1 r2 =>
      if nullable r1 then Alt (Cat (deriv d r1) r2) (deriv d r2)
      else Cat (deriv d r1) r2
  | Alt r1 r2 => Alt (deriv d r1) (deriv d r2)
  | Star r1 => Cat (deriv d r1) (Star r1)
  end.

(** Does [r] match at the start of [s]? *)
Fixpoint match_here (r : regex) (s : string) : bool :=
  nullable r ||
  match s with
  | EmptyString => false
  | String d rest => match_here (deriv d r) rest
  end.

(** [RegExp.prototype.test] without the [g] and [y] flags: a match
    starting at any index of [s]. *)
Fixpoint search (r : regex) (s : string) : bool :=
  match_here r s ||
  match s with
  | EmptyString => false
  | String _ rest => search r rest
  end.

(** The strings an expression matches in full. *)
Inductive Lang : regex -> string -> Prop :=
| Lang_Eps : Lang Eps EmptyString
| Lang_Chr (c d : ascii) :
    same_letter c d = true -> Lang (Chr c) (String d EmptyString)
| Lang_Dot (d : ascii) :
    line_terminator d = false -> Lang Dot (String d EmptyString)
| Lang_Cat (r1 r2 : regex) (u v : string) :
    Lang r1 u -> Lang r2 v -> Lang (Cat r1 r2) (u +:+ v)
| Lang_Alt_l (r1 r2 : regex) (u : string) : Lang r1 u -> Lang (Alt r1 r2) u
| Lang_Alt_r (r1 r2 : regex) (u : string) : Lang r2 u -> Lang (Alt r1 r2) u
| Lang_Star_nil (r : regex) : Lang (Star r) EmptyString
| Lang_Star_more (r : regex) (u v : string) :
    Lang r u -> Lang (Star r) v -> Lang (Star r) (u +:+ v).

End RegExp.

(** ** Results of a call *)

Inductive completion : Type :=
| Return (b : bool)
| Throw
| Beyond.

(** [new RegExp(source, 'i').test(s)]: [Throw] when the constructor raises
    a [SyntaxError], [Beyond] when the source leaves the embedded fragment. *)
Definition RegExp_i_test (source s : string) : completion :=
  match RegExp.parse source with
  | RegExp.Pattern r => Return (RegExp.search r s)
  | RegExp.SyntaxError => Throw
  | RegExp.Unsupported => Beyond
  end.

(** The source of the expression built for the split entry [perm]. *)
Definition wildcard_source (perm : list string) : string :=
  String "(" (JS.join ":" (Lodash.dropRight perm 1) +:+ String "." (String "*" (String ")" EmptyString))).

(** The loop of [has] on the contents of [this.permissions]. *)
Fixpoint has_loop (permissions : list string) (permission : string) : completion :=
  match permissions with
  | [] => Return false
  | entry :: rest =>
      let perm := JS.split ":" entry in
      if JS.includes perm "*" then RegExp_i_test (wildcard_source perm) permission
      else has_loop rest permission
  end.

(** The entries at which the loop returns, and what it returns there. *)
Definition wildcard_entry (entry : string) : bool :=
  JS.includes (JS.split ":" entry) "*".

Definition wildcard_test (entry permission : string) : completion :=
  RegExp_i_test (wildcard_source (JS.split ":" entry)) permission.

Definition has_in (permissions : list string) (permission : string) : completion :=
  if JS.includes permissions permission then Return true
  else has_loop permissions permission.

(** ** The store *)

(** Addresses of arrays and of roles. *)
Abbreviation loc := nat.

Inductive RoleType : Type := internal | custom.

(** The constructor's argument; [inherits] and [boost] may be left out. *)
Module UserRole.
Record t : Type := make {
  id : string;
  name : string;
  type : RoleType;
  permissions : loc;
  inherits : option (list loc);
  boost : option float
}.
End UserRole.

Module Role.

(** The fields of a [Role] instance.  The two permission fields hold the
    addresses of arrays, [inherits] the addresses of roles. *)
Record t : Type := make {
  id : string;
  name : string;
  slug : string;
  type : RoleType;
  rawPermissions : loc;
  permissions : loc;
  inherits : list loc;
  pointBoost : float
}.

Record store : Type := Store {
  arrays : list (list string);
  roles : list t
}.

Definition empty : store := Store [] [].

(** Evaluating an array literal, or any call returning a new array. *)
Definition new_array (contents : list string) (σ : store) : loc * store :=
  (length (arrays σ), Store (arrays σ ++ [contents]) (roles σ)).

Definition write_array (a : loc) (contents : list string) (σ : store) : store :=
  Store (<[a := contents]> (arrays σ)) (roles σ).

Definition write_role (this : loc) (r : t) (σ : store) : store :=
  Store (arrays σ) (<[this := r]> (roles σ)).

(** [this.permissions = a] *)
Definition assign_permissions (r : t) (a : loc) : t :=
  make (id r) (name r) (slug r) (type r) (rawPermissions r) a (inherits r) (pointBoost r).

(** [this.pointBoost = boost] *)
Definition assign_pointBoost (r : t) (boost : float) : t :=
  make (id r) (name r) (slug r) (type r) (rawPermissions r) (permissions r) (inherits r) boost.

(** [Array.prototype.forEach] with a callback that updates the store. *)
Fixpoint forEach {A : Type} (f : A -> store -> option store) (arr : list A)
    (σ : store) : option store :=
  match arr with
  | [] => Some σ
  | x :: rest => σ' ← f x σ; forEach f rest σ'
  end.

(** [inherit => this.permissions = union(this.permissions, inherit.permissions)] *)
Definition inherit_from (this : loc) (inherit : loc) (σ : store) : option store :=
  me ← roles σ !! this;
  parent ← roles σ !! inherit;
  mine ← arrays σ !! permissions me;
  theirs ← arrays σ !! permissions parent;
  let '(a, σ') := new_array (Lodash.union mine theirs) σ in
  Some (write_role this (assign_permissions me a) σ').

Section Construction.

(** lodash's [kebabCase]; no method reads the slug it produces. *)
Variable kebabCase : string -> string.

(** [new Role(u)]: the address of the new role and the store after. *)
Definition constructor (u : UserRole.t) (σ : store) : option (loc * store) :=
  let inherits := default [] (UserRole.inherits u) in
  let boost := default 0%float (UserRole.boost u) in
  let this := length (roles σ) in
  let me := make (UserRole.id u) (UserRole.name u) (kebabCase (UserRole.name u))
                 (UserRole.type u) (UserRole.permissions u) (UserRole.permissions u)
                 inherits boost in
  σ' ← forEach (inherit_from this) inherits (Store (arrays σ) (roles σ ++ [me]));
  Some (this, σ').

End Construction.

(** [has(permission)] *)
Definition has (this : loc) (permission : string) (σ : store) : option completion :=
  me ← roles σ !! this;
  permissions ← arrays σ !! permissions me;
  Some (has_in permissions permission).

(** The loop of [hasInRaw]. *)
Fixpoint hasInRaw_loop (permissions : list string) (permission : string) : bool :=
  match permissions with
  | [] => false
  | entry :: rest =>
      if String.eqb entry permission then true else hasInRaw_loop rest permission
  end.

(** [hasInRaw(permission)] *)
Definition hasInRaw (this : loc) (permission : string) (σ : store) : option bool :=
  me ← roles σ !! this;
  permissions ← arrays σ !! rawPermissions me;
  Some (hasInRaw_loop permissions permission).

Definition getId (this : loc) (σ : store) : option string := id <$> roles σ !! this.
Definition getName (this : loc) (σ : store) : option string := name <$> roles σ !! this.
Definition getSlug (this : loc) (σ : store) : option string := slug <$> roles σ !! this.
Definition getBoost (this : loc) (σ : store) : option float := pointBoost <$> roles σ !! this.
Definition getPerms (this : loc) (σ : store) : option loc := permissions <$> roles σ !! this.
Definition getInherits (this : loc) (σ : store) : option (list loc) := inherits <$> roles σ !! this.
Definition getType (this : loc) (σ : store) : option RoleType := type <$> roles σ !! this.

(** [setBoost(boost)] *)
Definition setBoost (this : loc) (boost : float) (σ : store) : option (float * store) :=
  me ← roles σ !! this;
  Some (boost, write_role this (assign_pointBoost me boost) σ).

(** [set(permissions)]: the field takes the caller's array; returns [this]. *)
Definition set (this : loc) (permissions : loc) (σ : store) : option (loc * store) :=
  me ← roles σ !! this;
  Some (this, write_role this (assign_permissions me permissions) σ).

(** [add(permission)]: a [push] onto the array the field holds. *)
Definition add (this : loc) (permission : string) (σ : store) : option store :=
  me ← roles σ !! this;
  contents ← arrays σ !! permissions me;
  if JS.includes contents permission then Some σ
  else Some (write_array (permissions me) (contents ++ [permission]) σ).

(** [remove(permission)]: [filter] returns a new array. *)
Definition remove (this : loc) (permission : string) (σ : store) : option store :=
  me ← roles σ !! this;
  contents ← arrays σ !! permissions me;
  let '(a, σ') :=
    new_array (JS.filter (fun perm => negb (String.eqb perm permission)) contents) σ in
  Some (write_role this (assign_permissions me a) σ').

(** The current contents of the two permission arrays of a role. *)
Definition effectivePermissions (this : loc) (σ : store) : option (list string) :=
  me ← roles σ !! this; arrays σ !! permissions me.

Definition rawPermissionsOf (this : loc) (σ : store) : option (list string) :=
  me ← roles σ !! this; arrays σ !! rawPermissions me.

(** One call that changes the effective permissions of a role. *)
Inductive mutation : Type :=
| by_set (permissions : loc)
| by_add (permission : string)
| by_remove (permission : string).

Definition mutate (this : loc) (m : mutation) (σ : store) : option store :=
  match m with
  | by_set permissions => snd <$> set this permissions σ
  | by_add permission => add this permission σ
  | by_remove permission => remove this permission σ
  end.

End Role.

(** ** Notions used in the statements *)

(** What [forEach] leaves in [this.permissions]: the unions, parent after
    parent, starting from the role's own array. *)
Definition inherited (σ : Role.store) (parents : list loc) (mine : list string) : list string :=
  fold_left (fun acc p => Lodash.union acc (default [] (Role.effectivePermissions p σ)))
            parents mine.

(** The parents named by the argument, none when [inherits] is left out. *)
Definition parents_of (u : UserRole.t) : list loc := default [] (UserRole.inherits u).

(** The caller hands over an existing array and existing parents. *)
Definition ready (u : UserRole.t) (σ : Role.store) : Prop :=
  is_Some (Role.arrays σ !! UserRole.permissions u) /\
  Forall (fun p => is_Some (Role.effectivePermissions p σ)) (parents_of u).

(** [s] starts with [lits], letter case apart. *)
Fixpoint ci_prefix (lits s : string) : bool :=
  match lits, s with
  | EmptyString, _ => true
  | String _ _, EmptyString => false
  | String c lits', String d s' => RegExp.same_letter c d && ci_prefix lits' s'
  end.

(** [s] contains [lits] somewhere, letter case apart. *)
Fixpoint ci_contains (lits s : string) : bool :=
  ci_prefix lits s ||
  match s with
  | EmptyString => false
  | String _ s' => ci_contains lits s'
  end.

(** No syntax character of regular expressions occurs in [s]. *)
Fixpoint plain (s : string) : bool :=
  match s with
  | EmptyString => true
  | String c s' =>
      negb (existsb (Ascii.eqb c) ["("; ")"; "*"; "."]%char)
      && negb (RegExp.other_syntax_character c)
      && plain s'
  end.

(** The specification's reading of a wildcard entry: the last segment of
    the entry, split on colons, is the wildcard marker. *)
Definition wildcard_entry_by_spec (entry : string) : bool :=
  match last (JS.split ":" entry) with
  | Some seg => String.eqb seg "*"
  | None => false
  end.

(** The terms of a prefix without syntax characters, one per code unit. *)
Fixpoint letters (lits : string) : list RegExp.regex :=
  match lits with
  | EmptyString => []
  | String c lits' => RegExp.Chr c :: letters lits'
  end.

(** ** Scenarios *)

Module Scenario.

(** The role names used below are already in kebab case, where lodash's
    [kebabCase] returns its argument. *)
Definition kebabCase (name : string) : string := name.

(** [new Role({ id, name, type, permissions: [...], inherits })], the
    permissions written as an array literal. *)
Definition new_Role (id name : string) (type : RoleType) (permissions : list string)
    (inherits : option (list loc)) (σ : Role.store) : option (loc * Role.store) :=
  let '(a, σ1) := Role.new_array permissions σ in
  Role.constructor kebabCase (UserRole.make id name type a inherits None) σ1.

(** The store holding one role, user, that grants user:voice. *)
Definition user_store : Role.store :=
  Role.Store [["user:voice"]]
             [Role.make "1" "user" "user" internal 0 0 [] 0%float].

(** The argument for a role raider that inherits user, its permissions
    array already evaluated. *)
Definition raider_store : Role.store :=
  snd (Role.new_array ["command:run:love_raider"] user_store).

Definition raider : UserRole.t :=
  UserRole.make "2" "raider" custom 1 (Some [0]) None.

Definition raider_built : Role.store :=
  from_option snd Role.empty (Role.constructor kebabCase raider raider_store).

(** The parent user mutated once after raider was built. *)
Definition raider_after_add : Role.store :=
  default Role.empty (Role.mutate 0 (Role.by_add "channel:quote:delete") raider_built).

(** The parent user mutated three times after raider was built. *)
Definition raider_after : Role.store :=
  default Role.empty
    (Role.forEach (Role.mutate 0)
       [Role.by_add "channel:quote:delete"; Role.by_remove "user:voice"; Role.by_set 0]
       raider_built).

(** A role without parents, then [add] of a permission it did not declare,
    read back through [hasInRaw] and [rawPermissions]. *)
Definition add_then_raw : option (bool * list string) :=
  '(r, σ1) ← new_Role "3" "mod" custom ["user:voice"] None Role.empty;
  σ2 ← Role.add r "channel:quote:delete" σ1;
  b ← Role.hasInRaw r "channel:quote:delete" σ2;
  raw ← Role.rawPermissionsOf r σ2;
  Some (b, raw).

(** A role without parents built from an array that repeats an entry. *)
Definition repeated_entry : option (list string) :=
  '(r, σ1) ← new_Role "3" "mod" custom ["user:voice"; "user:voice"] None Role.empty;
  Role.effectivePermissions r σ1.

(** [remove] of an entry that a wildcard entry still covers, then [has]. *)
Definition remove_then_has : option completion :=
  '(r, σ1) ← new_Role "3" "mod" custom ["channel:*"; "channel:quote:delete"] None Role.empty;
  σ2 ← Role.remove r "channel:quote:delete" σ1;
  Role.has r "channel:quote:delete" σ2.

(** Stores holding one role, mod, built without parents. *)
Definition three_entries : Role.store :=
  Role.Store [["user:voice"; "user:*"; "channel:*"]]
             [Role.make "3" "mod" "mod" custom 0 0 [] 0%float].

Definition two_entries : Role.store :=
  Role.Store [["user:voice"; "user:*"]]
             [Role.make "3" "mod" "mod" custom 0 0 [] 0%float].

Definition two_wildcards : Role.store :=
  Role.Store [["user:*"; "channel:*"]]
             [Role.make "3" "mod" "mod" custom 0 0 [] 0%float].

(** A role whose wildcard entry starts with the marker, and a role that
    holds the marker alone. *)
Definition leading_star : Role.store :=
  Role.Store [["user:voice"; "*:delete"]]
             [Role.make "3" "mod" "mod" custom 0 0 [] 0%float].

Definition catch_all : Role.store :=
  Role.Store [["user:voice"; "*"]]
             [Role.make "3" "mod" "mod" custom 0 0 [] 0%float].

(** The role raider mutated twice after it was built. *)
Definition raider_mutated : Role.store :=
  default Role.empty
    (Role.forEach (Role.mutate 1)
       [Role.by_remove "user:voice"; Role.by_add "channel:quote:delete"]
       raider_built).

(** A role mod that grants channel:*, and the argument for a role helper
    that inherits mod and declares user:* itself. *)
Definition mod_store : Role.store :=
  Role.Store [["channel:*"]]
             [Role.make "5" "mod" "mod" internal 0 0 [] 0%float].

Definition helper_store : Role.store :=
  snd (Role.new_array ["user:*"] mod_store).

Definition helper : UserRole.t :=
  UserRole.make "6" "helper" custom 1 (Some [0]) None.

(** Three arrays evaluated up front and the role user; raider is built over
    them with user as parent, captain then with raider as parent. *)
Definition crew_store : Role.store :=
  Role.Store [["user:voice"]; ["command:run:love_raider"]; ["command:run:captain"]]
             [Role.make "1" "user" "user" internal 0 0 [] 0%float].

Definition crew_with_raider : Role.store :=
  from_option snd Role.empty (Role.constructor kebabCase raider crew_store).

Definition captain : UserRole.t :=
  UserRole.make "7" "captain" custom 2 (Some [1]) None.

(** The argument for a role echo that declares what user grants, in an
    array of its own, and inherits user. *)
Definition echo_store : Role.store :=
  snd (Role.new_array ["user:voice"] user_store).

Definition echo : UserRole.t :=
  UserRole.make "8" "echo" custom 1 (Some [0]) None.

(** An array and no role yet; two roles without parents are then built
    from that one array. *)
Definition shared_store : Role.store := Role.Store [["user:voice"]] [].

Definition first_sharer : UserRole.t :=
  UserRole.make "9" "first" custom 0 None None.

Definition second_sharer : UserRole.t :=
  UserRole.make "10" "second" custom 0 (Some []) None.

Definition shared_after_first : Role.store :=
  from_option snd Role.empty (Role.constructor kebabCase first_sharer shared_store).

Definition shared_after_second : Role.store :=
  from_option snd Role.empty (Role.constructor kebabCase second_sharer shared_after_first).

(** [has] on a role without parents built from the given array. *)
Definition has_of (permissions : list string) (permission : string) : option completion :=
  '(r, σ1) ← new_Role "3" "mod" custom permissions None Role.empty;
  Role.has r permission σ1.

End Scenario.

(** * Properties *)

(** ** The built-ins on small inputs *)

Example split_segments :
  JS.split ":" "channel:quote:delete" = ["channel"; "quote"; "delete"].
Proof. reflexivity. Qed.

Example split_empty : JS.split ":" EmptyString = [EmptyString].
Proof. reflexivity. Qed.

Example split_trailing_separator : JS.split ":" "channel:" = ["channel"; EmptyString].
Proof. reflexivity. Qed.

Example join_segments : JS.join ":" ["channel"; "quote"] = "channel:quote".
Proof. reflexivity. Qed.

Example dropRight_last : Lodash.dropRight ["channel"; "quote"; "*"] 1 = ["channel"; "quote"].
Proof. reflexivity. Qed.

Example union_first_seen :
  Lodash.union ["a"; "b"; "a"] ["b"; "c"] = ["a"; "b"; "c"].
Proof. vm_compute. reflexivity. Qed.

Example Canonicalize_letter : RegExp.Canonicalize "a" = RegExp.Canonicalize "A".
Proof. reflexivity. Qed.

(** Wildcard containment, as the specification lists it. *)
Example wildcard_grants :
  has_in ["channel:*"] "channel:quote:delete" = Return true.
Proof. vm_compute. reflexivity. Qed.

Example wildcard_refuses : has_in ["channel:*"] "user:voice" = Return false.
Proof. vm_compute. reflexivity. Qed.

Example wildcard_ignores_case : has_in ["channel:*"] "CHANNEL:Quote" = Return true.
Proof. vm_compute. reflexivity. Qed.

(** A leading * leaves the quantifier with nothing to repeat. *)
Example wildcard_first_segment : has_in ["*:delete"] "channel:delete" = Throw.
Proof. vm_compute. reflexivity. Qed.

Example wildcard_alone : has_in ["*"] "channel:delete" = Return true.
Proof. vm_compute. reflexivity. Qed.

Example no_wildcard : has_in ["user:voice"] "channel:delete" = Return false.
Proof. vm_compute. reflexivity. Qed.

(** ** Arrays *)

Lemma includes_true (arr : list string) (x : string) :
  JS.includes arr x = true <-> x ∈ arr.
Proof. unfold JS.includes. apply bool_decide_eq_true. Qed.

Lemma includes_false (arr : list string) (x : string) :
  JS.includes arr x = false <-> x ∉ arr.
Proof. unfold JS.includes. apply bool_decide_eq_false. Qed.

Lemma hasInRaw_loop_decides (arr : list string) (x : string) :
  Role.hasInRaw_loop arr x = bool_decide (x ∈ arr).
Proof.
  induction arr as [|entry rest IH]; cbn [Role.hasInRaw_loop].
  - symmetry. apply bool_decide_eq_false. apply not_elem_of_nil.
  - destruct (String.eqb_spec entry x) as [->|Hne].
    + symmetry. apply bool_decide_eq_true. left.
    + rewrite IH. apply bool_decide_ext. rewrite elem_of_cons.
      split; [by right|]. by intros [->|Hin].
Qed.

Lemma filter_drops (arr : list string) (x y : string) :
  y ∈ JS.filter (fun perm => negb (String.eqb perm x)) arr <-> y ∈ arr /\ y <> x.
Proof.
  unfold JS.filter. rewrite !list_elem_of_In, filter_In.
  destruct (String.eqb_spec y x) as [->|Hne]; simpl.
  - split; [by intros [_ ?]|by intros [_ ?]].
  - tauto.
Qed.

Lemma filter_keeps_NoDup (f : string -> bool) (arr : list string) :
  NoDup arr -> NoDup (JS.filter f arr).
Proof.
  unfold JS.filter. rewrite !NoDup_ListNoDup. apply List.NoDup_filter.
Qed.

(** ** [union] *)

Section Union.

Import Lodash.

Lemma uniq_step_elem (result : list string) (v x : string) :
  x ∈ uniq_step result v <-> x ∈ result \/ x = v.
Proof.
  unfold uniq_step. destruct (JS.includes result v) eqn:E.
  - apply includes_true in E. split; [by left|]. by intros [Hin| ->].
  - rewrite elem_of_app, list_elem_of_singleton. tauto.
Qed.

Lemma uniq_step_NoDup (result : list string) (v : string) :
  NoDup result -> NoDup (uniq_step result v).
Proof.
  intros Hnd. unfold uniq_step. destruct (JS.includes result v) eqn:E; [done|].
  apply includes_false in E. apply NoDup_app. split; [done|]. split.
  - intros y Hy Hv. apply list_elem_of_singleton in Hv. by subst.
  - apply NoDup_singleton.
Qed.

Lemma fold_uniq_elem (values result : list string) (x : string) :
  x ∈ fold_left uniq_step values result <-> x ∈ result \/ x ∈ values.
Proof.
  revert result. induction values as [|v values IH]; intros result; simpl.
  - rewrite elem_of_nil. tauto.
  - rewrite IH, uniq_step_elem, elem_of_cons. tauto.
Qed.

Lemma fold_uniq_NoDup (values result : list string) :
  NoDup result -> NoDup (fold_left uniq_step values result).
Proof.
  revert result. induction values as [|v values IH]; intros result Hnd; simpl.
  - done.
  - apply IH. by apply uniq_step_NoDup.
Qed.

Lemma union_elem (a b : list string) (x : string) :
  x ∈ union a b <-> x ∈ a \/ x ∈ b.
Proof.
  unfold union, uniq. rewrite fold_uniq_elem, elem_of_app, elem_of_nil. tauto.
Qed.

Lemma union_NoDup (a b : list string) : NoDup (union a b).
Proof. apply fold_uniq_NoDup. apply NoDup_nil_2. Qed.

End Union.

(** ** The store during construction *)

Section Construction_lemmas.

Import Role.

Lemma effectivePermissions_unfold this σ me :
  roles σ !! this = Some me ->
  effectivePermissions this σ = arrays σ !! permissions me.
Proof. intros H. unfold effectivePermissions. by rewrite H. Qed.

Lemma rawPermissionsOf_unfold this σ me :
  roles σ !! this = Some me ->
  rawPermissionsOf this σ = arrays σ !! rawPermissions me.
Proof. intros H. unfold rawPermissionsOf. by rewrite H. Qed.

Lemma effectivePermissions_Some this σ contents :
  effectivePermissions this σ = Some contents ->
  exists me, roles σ !! this = Some me /\ arrays σ !! permissions me = Some contents.
Proof.
  unfold effectivePermissions. destruct (roles σ !! this) as [me|]; [|done].
  simpl. eauto.
Qed.

(** A store that only grew new arrays and changed the role at [this]. *)
Lemma effectivePermissions_frame this r σ σ' p contents :
  p <> this ->
  arrays σ `prefix_of` arrays σ' ->
  roles σ' = <[this := r]> (roles σ) ->
  effectivePermissions p σ = Some contents ->
  effectivePermissions p σ' = Some contents.
Proof.
  intros Hne Hpre Hroles (parent & Hp & Hc)%effectivePermissions_Some.
  unfold effectivePermissions. rewrite Hroles.
  rewrite list_lookup_insert_ne by done. rewrite Hp.
  simpl. eapply prefix_lookup_Some; eauto.
Qed.

Lemma inherited_ext σ σ' parents mine :
  Forall (fun p => effectivePermissions p σ' = effectivePermissions p σ) parents ->
  inherited σ' parents mine = inherited σ parents mine.
Proof.
  unfold inherited. intros H. revert mine.
  induction H as [|p parents Hp _ IH]; intros mine; simpl; [done|].
  by rewrite Hp, IH.
Qed.

Lemma inherit_from_runs this p σ me parent mine theirs :
  roles σ !! this = Some me ->
  roles σ !! p = Some parent ->
  arrays σ !! permissions me = Some mine ->
  arrays σ !! permissions parent = Some theirs ->
  inherit_from this p σ =
    Some (Store (arrays σ ++ [Lodash.union mine theirs])
                (<[this := assign_permissions me (length (arrays σ))]> (roles σ))).
Proof.
  intros Hme Hp Hmine Htheirs. unfold inherit_from.
  rewrite Hme. simpl. rewrite Hp. simpl. rewrite Hmine. simpl. rewrite Htheirs.
  reflexivity.
Qed.

Lemma forEach_inherit parents : forall σ this me mine,
  roles σ !! this = Some me ->
  arrays σ !! permissions me = Some mine ->
  Forall (fun p => p <> this /\ is_Some (effectivePermissions p σ)) parents ->
  exists σ' a,
    forEach (inherit_from this) parents σ = Some σ' /\
    roles σ' = <[this := assign_permissions me a]> (roles σ) /\
    arrays σ `prefix_of` arrays σ' /\
    arrays σ' !! a = Some (inherited σ parents mine) /\
    (parents = [] -> a = permissions me) /\
    (parents <> [] -> length (arrays σ) <= a).
Proof.
  induction parents as [|p parents IH]; intros σ this me mine Hme Hmine Hall.
  - exists σ, (permissions me). simpl. repeat split; try done.
    destruct me. simpl. symmetry. by apply list_insert_id.
  - apply Forall_cons in Hall as [[Hne [theirs Hp]] Hall].
    pose proof Hp as (parent & Hparent & Htheirs)%effectivePermissions_Some.
    pose proof (lookup_lt_Some _ _ _ Hme) as Hlt.
    set (a1 := length (arrays σ)).
    set (me1 := assign_permissions me a1).
    set (σ1 := Store (arrays σ ++ [Lodash.union mine theirs]) (<[this := me1]> (roles σ))).
    assert (Hframe : forall q c, q <> this ->
              effectivePermissions q σ = Some c -> effectivePermissions q σ1 = Some c).
    { intros q c Hq Hc. eapply (effectivePermissions_frame this me1 σ σ1); eauto.
      simpl. by apply prefix_app_r. }
    destruct (IH σ1 this me1 (Lodash.union mine theirs)) as (σ' & a & Hrun & Hroles & Hpre & Ha & Hsame & Hfresh).
    + simpl. by apply list_lookup_insert_eq.
    + simpl. subst a1. by rewrite list_lookup_middle.
    + eapply Forall_impl; [exact Hall|]. simpl. intros q [Hq [c Hc]]. split; [done|].
      exists c. by apply Hframe.
    + exists σ', a. split; [|split; [|split; [|split; [|split]]]].
      * simpl. erewrite inherit_from_runs by eauto. simpl. exact Hrun.
      * rewrite Hroles. simpl. by rewrite list_insert_insert_eq.
      * etrans; [|exact Hpre]. simpl. by apply prefix_app_r.
      * rewrite Ha. unfold inherited at 2. simpl. rewrite Hp. simpl.
        f_equal. apply (inherited_ext σ σ1).
        eapply Forall_impl; [exact Hall|]. simpl.
        intros q [Hq [c Hc]]. rewrite Hc. by apply Hframe.
      * done.
      * intros _. destruct parents as [|p' parents'].
        -- rewrite (Hsame eq_refl). simpl. lia.
        -- specialize (Hfresh ltac:(done)). simpl in Hfresh.
           rewrite length_app in Hfresh. lia.
Qed.

End Construction_lemmas.

(** ** What the constructor returns *)

Section Constructor_result.

Import Role.

Variable kebabCase : string -> string.

Lemma effectivePermissions_lt p σ :
  is_Some (effectivePermissions p σ) -> p < length (roles σ).
Proof.
  intros [c (me & Hme & _)%effectivePermissions_Some]. by eapply lookup_lt_Some.
Qed.

Lemma constructor_runs (u : UserRole.t) (σ : store) (own : list string) :
  arrays σ !! UserRole.permissions u = Some own ->
  Forall (fun p => is_Some (effectivePermissions p σ)) (parents_of u) ->
  exists σ' me,
    constructor kebabCase u σ = Some (length (roles σ), σ') /\
    roles σ' = roles σ ++ [me] /\
    rawPermissions me = UserRole.permissions u /\
    arrays σ `prefix_of` arrays σ' /\
    arrays σ' !! permissions me = Some (inherited σ (parents_of u) own) /\
    (parents_of u = [] -> permissions me = UserRole.permissions u) /\
    (parents_of u <> [] -> length (arrays σ) <= permissions me).
Proof.
  intros Hown Hparents. unfold constructor. fold (parents_of u).
  set (this := length (roles σ)).
  set (me0 := make _ _ _ _ _ _ _ _).
  set (σ0 := Store (arrays σ) (roles σ ++ [me0])).
  assert (Hsame : forall p, p < this -> effectivePermissions p σ0 = effectivePermissions p σ).
  { intros p Hp. unfold effectivePermissions. simpl. by rewrite lookup_app_l. }
  destruct (forEach_inherit (parents_of u) σ0 this me0 own)
    as (σ' & a & Hrun & Hroles & Hpre & Ha & Hnone & Hsome).
  - simpl. subst this. by rewrite list_lookup_middle.
  - done.
  - eapply Forall_impl; [exact Hparents|]. simpl. intros p Hp.
    pose proof (effectivePermissions_lt p σ Hp) as Hlt. fold this in Hlt. split; [lia|].
    by rewrite Hsame.
  - exists σ', (assign_permissions me0 a). rewrite Hrun. simpl.
    split; [done|]. split; [|split; [done|split; [done|split; [|done]]]].
    + rewrite Hroles. simpl. subst this.
      replace (length (roles σ)) with (length (roles σ) + 0) by lia.
      rewrite insert_app_r. done.
    + rewrite Ha. f_equal. apply inherited_ext.
      eapply Forall_impl; [exact Hparents|]. simpl. intros p Hp.
      apply Hsame. by apply effectivePermissions_lt.
Qed.

Lemma inherited_grows σ parents : forall mine x,
  x ∈ mine -> x ∈ inherited σ parents mine.
Proof.
  unfold inherited. induction parents as [|p parents IH]; intros mine x Hx; simpl.
  - done.
  - apply IH. apply union_elem. by left.
Qed.

Lemma inherited_covers σ parents : forall mine p theirs x,
  p ∈ parents -> effectivePermissions p σ = Some theirs -> x ∈ theirs ->
  x ∈ inherited σ parents mine.
Proof.
  induction parents as [|q parents IH]; intros mine p theirs x Hp Htheirs Hx.
  - by apply elem_of_nil in Hp.
  - apply elem_of_cons in Hp as [<-|Hp].
    + unfold inherited. simpl. rewrite Htheirs. simpl.
      apply (inherited_grows σ parents). apply union_elem. by right.
    + unfold inherited. simpl. by apply (IH _ p theirs).
Qed.

Lemma inherited_NoDup σ parents : forall mine,
  parents <> [] \/ NoDup mine -> NoDup (inherited σ parents mine).
Proof.
  unfold inherited. induction parents as [|q parents IH]; intros mine H; simpl.
  - by destruct H.
  - apply IH. right. apply union_NoDup.
Qed.

End Constructor_result.

(** ** The methods on a store *)

Section Methods.

Import Role.

Lemma has_unfold this σ eff p :
  effectivePermissions this σ = Some eff ->
  has this p σ = Some (has_in eff p).
Proof.
  intros (me & Hme & Heff)%effectivePermissions_Some.
  unfold has. rewrite Hme. simpl. by rewrite Heff.
Qed.

Lemma hasInRaw_unfold this σ raw p :
  rawPermissionsOf this σ = Some raw ->
  hasInRaw this p σ = Some (hasInRaw_loop raw p).
Proof.
  unfold rawPermissionsOf, hasInRaw.
  destruct (roles σ !! this) as [me|]; [|done]. simpl. by intros ->.
Qed.

(** An entry of the list is found by [includes], before the loop. *)
Lemma has_in_entry (eff : list string) (p : string) :
  p ∈ eff -> has_in eff p = Return true.
Proof. intros Hin. unfold has_in. apply includes_true in Hin. by rewrite Hin. Qed.

(** The loop finds no wildcard entry. *)
Lemma has_loop_none (entries : list string) (p : string) :
  Forall (fun e => wildcard_entry e = false) entries ->
  has_loop entries p = Return false.
Proof.
  induction 1 as [|e entries He _ IH]; simpl; [done|].
  unfold wildcard_entry in He. by rewrite He.
Qed.

(** The loop stops at the first wildcard entry. *)
Lemma has_loop_first (before after : list string) (entry p : string) :
  Forall (fun e => wildcard_entry e = false) before ->
  wildcard_entry entry = true ->
  has_loop (before ++ entry :: after) p = wildcard_test entry p.
Proof.
  intros Hbefore Hentry. induction Hbefore as [|e before He _ IH]; simpl.
  - unfold wildcard_entry in Hentry. by rewrite Hentry.
  - unfold wildcard_entry in He. by rewrite He.
Qed.

Lemma set_runs this a σ me :
  roles σ !! this = Some me ->
  set this a σ = Some (this, Store (arrays σ) (<[this := assign_permissions me a]> (roles σ))).
Proof. intros Hme. unfold set. by rewrite Hme. Qed.

Lemma add_runs this p σ me eff :
  roles σ !! this = Some me ->
  arrays σ !! permissions me = Some eff ->
  add this p σ =
    Some (if JS.includes eff p then σ
          else Store (<[permissions me := eff ++ [p]]> (arrays σ)) (roles σ)).
Proof.
  intros Hme Heff. unfold add. rewrite Hme. simpl. rewrite Heff. simpl.
  by destruct (JS.includes eff p).
Qed.

Lemma remove_runs this p σ me eff :
  roles σ !! this = Some me ->
  arrays σ !! permissions me = Some eff ->
  remove this p σ =
    Some (Store (arrays σ ++ [JS.filter (fun perm => negb (String.eqb perm p)) eff])
                (<[this := assign_permissions me (length (arrays σ))]> (roles σ))).
Proof.
  intros Hme Heff. unfold remove. rewrite Hme. simpl. by rewrite Heff.
Qed.

Lemma add_effective this p σ eff :
  effectivePermissions this σ = Some eff ->
  exists σ', add this p σ = Some σ' /\
    effectivePermissions this σ' = Some (if JS.includes eff p then eff else eff ++ [p]).
Proof.
  intros Heff. pose proof Heff as (me & Hme & Harr)%effectivePermissions_Some.
  eexists. split; [by apply add_runs|].
  destruct (JS.includes eff p); [done|].
  unfold effectivePermissions. simpl. rewrite Hme. simpl.
  apply list_lookup_insert_eq. by eapply lookup_lt_Some.
Qed.

Lemma remove_effective this p σ eff :
  effectivePermissions this σ = Some eff ->
  exists σ', remove this p σ = Some σ' /\
    effectivePermissions this σ' =
      Some (JS.filter (fun perm => negb (String.eqb perm p)) eff).
Proof.
  intros (me & Hme & Harr)%effectivePermissions_Some.
  eexists. split; [by eapply remove_runs|].
  unfold effectivePermissions. simpl.
  rewrite list_lookup_insert_eq by (by eapply lookup_lt_Some). simpl.
  by rewrite list_lookup_middle.
Qed.

End Methods.

(** ** What a wildcard entry tests *)

Section Wildcard_test.

Import RegExp.

Lemma parse_plain (lits : string) : forall (rest : string) (cur : list regex)
    (atom : bool) (outer : list (list regex)),
  plain lits = true ->
  parse_from (lits +:+ String "." rest) cur atom outer =
  parse_from rest (Dot :: rev (letters lits) ++ cur) true outer.
Proof.
  induction lits as [|c lits IH]; intros rest cur atom outer Hplain.
  - reflexivity.
  - cbn [plain] in Hplain. apply andb_true_iff in Hplain as [Hc Hplain].
    apply andb_true_iff in Hc as [Hc1 Hc2].
    apply negb_true_iff in Hc1, Hc2. cbn [existsb] in Hc1.
    apply orb_false_iff in Hc1 as [Hopen Hc1].
    apply orb_false_iff in Hc1 as [Hclose Hc1].
    apply orb_false_iff in Hc1 as [Hstar Hc1].
    apply orb_false_iff in Hc1 as [Hdot _].
    change (String c lits +:+ String "." rest) with (String c (lits +:+ String "." rest)).
    cbn [parse_from].
    rewrite Hopen, Hclose, Hstar, Hdot, Hc2. rewrite IH by done.
    cbn [letters rev]. by rewrite <- app_assoc.
Qed.

Lemma match_here_Void (s : string) : match_here Void s = false.
Proof. induction s as [|d s IH]; [done|]. simpl. exact IH. Qed.

Lemma match_here_Alt (s : string) : forall r1 r2 : regex,
  match_here (Alt r1 r2) s = match_here r1 s || match_here r2 s.
Proof.
  induction s as [|d s IH]; intros r1 r2.
  - simpl. by rewrite !orb_false_r.
  - cbn [match_here nullable deriv]. rewrite IH.
    destruct (nullable r1), (nullable r2), (match_here (deriv d r1) s); done.
Qed.

Lemma match_here_Cat_Void (r : regex) (s : string) : match_here (Cat Void r) s = false.
Proof. induction s as [|d s IH]; [done|]. simpl. exact IH. Qed.

Lemma match_here_Cat_Eps (r : regex) (s : string) :
  match_here (Cat Eps r) s = match_here r s.
Proof.
  destruct s as [|d s]; [done|].
  cbn [match_here nullable deriv andb]. by rewrite match_here_Alt, match_here_Cat_Void.
Qed.

Lemma match_here_Cat_r_Eps (s : string) : forall r : regex,
  match_here (Cat r Eps) s = match_here r s.
Proof.
  induction s as [|d s IH]; intros r.
  - simpl. by rewrite andb_true_r.
  - cbn [match_here nullable deriv]. rewrite andb_true_r.
    destruct (nullable r); [done|]. simpl. apply IH.
Qed.

Lemma match_here_letter (c : ascii) (r : regex) (s : string) :
  match_here (Cat (Chr c) r) s =
  match s with
  | EmptyString => false
  | String d s' => same_letter c d && match_here r s'
  end.
Proof.
  destruct s as [|d s]; [done|].
  cbn [match_here nullable deriv andb orb].
  destruct (same_letter c d).
  - by rewrite match_here_Cat_Eps.
  - by rewrite match_here_Cat_Void.
Qed.

Lemma match_here_letters (lits : string) : forall s : string,
  match_here (alternative (letters lits ++ [Star Dot])) s = ci_prefix lits s.
Proof.
  induction lits as [|c lits IH]; intros s.
  - destruct s; reflexivity.
  - cbn [letters app alternative fold_right]. rewrite match_here_letter.
    destruct s as [|d s]; [done|]. simpl. f_equal. apply IH.
Qed.

Lemma search_letters (lits s : string) :
  search (Cat (alternative (letters lits ++ [Star Dot])) Eps) s = ci_contains lits s.
Proof.
  induction s as [|d s IH].
  - cbn [search ci_contains].
    by rewrite match_here_Cat_r_Eps, match_here_letters.
  - cbn [search ci_contains]. rewrite IH.
    by rewrite match_here_Cat_r_Eps, match_here_letters.
Qed.

(** The expression built from a prefix without syntax characters looks for
    that prefix anywhere in the permission, letter case apart. *)
Lemma RegExp_i_test_plain (lits s : string) :
  plain lits = true ->
  RegExp_i_test (String "(" (lits +:+ String "." (String "*" (String ")" EmptyString)))) s
  = Return (ci_contains lits s).
Proof.
  intros Hplain. unfold RegExp_i_test, parse. cbn [parse_from Ascii.eqb].
  simpl (Ascii.eqb _ _). cbv iota.
  rewrite parse_plain by done. simpl.
  rewrite app_nil_r, rev_involutive. f_equal. apply search_letters.
Qed.

End Wildcard_test.

(** A wildcard entry whose segments before the last are free of syntax
    characters grants every permission that contains those segments, joined
    by colons, anywhere in it and in any letter case. *)
Lemma wildcard_test_plain (entry p : string) :
  plain (JS.join ":" (Lodash.dropRight (JS.split ":" entry) 1)) = true ->
  wildcard_test entry p =
  Return (ci_contains (JS.join ":" (Lodash.dropRight (JS.split ":" entry) 1)) p).
Proof. intros Hplain. unfold wildcard_test, wildcard_source. by apply RegExp_i_test_plain. Qed.

(** ** The matcher against the language of an expression *)

Module RegExpSpec.

Import RegExp.

Lemma append_nil_l (v : string) : EmptyString +:+ v = v.
Proof. reflexivity. Qed.

Lemma append_String (c : ascii) (u v : string) :
  String c u +:+ v = String c (u +:+ v).
Proof. reflexivity. Qed.

Lemma append_empty (u v : string) :
  u +:+ v = EmptyString -> u = EmptyString /\ v = EmptyString.
Proof.
  destruct u as [|c u].
  - rewrite append_nil_l. by intros ->.
  - rewrite append_String. discriminate.
Qed.

Lemma append_cons (u v : string) (d : ascii) (w : string) :
  u +:+ v = String d w ->
  (u = EmptyString /\ v = String d w) \/ (exists u', u = String d u' /\ w = u' +:+ v).
Proof.
  destruct u as [|c u].
  - rewrite append_nil_l. intros ->. by left.
  - rewrite append_String. intros [= -> <-]. right. by exists u.
Qed.

Lemma nullable_Lang (r : regex) : nullable r = true <-> Lang r EmptyString.
Proof.
  induction r as [| |c| |r1 IH1 r2 IH2|r1 IH1 r2 IH2|r IH]; simpl.
  - split; [done|]. inversion 1.
  - split; [constructor|done].
  - split; [done|]. inversion 1.
  - split; [done|]. inversion 1.
  - rewrite andb_true_iff, IH1, IH2. split.
    + intros [H1 H2]. exact (Lang_Cat r1 r2 EmptyString EmptyString H1 H2).
    + inversion 1 as [| | |? ? u v H1 H2 [E1 E2] E| | | |]; subst.
      apply append_empty in E as [-> ->]. done.
  - rewrite orb_true_iff, IH1, IH2. split.
    + intros [H|H]; [by apply Lang_Alt_l|by apply Lang_Alt_r].
    + inversion 1; subst; tauto.
  - split; [constructor|done].
Qed.

Lemma Lang_Star_cons_inv (r : regex) (s : string) :
  Lang (Star r) s -> forall (d : ascii) (w : string), s = String d w ->
  exists u v, w = u +:+ v /\ Lang r (String d u) /\ Lang (Star r) v.
Proof.
  intros H. remember (Star r) as sr eqn:Esr.
  induction H as [| | | | | | |r' u v Hu _ Hv IHv]; intros a w E; try discriminate.
  injection Esr as ->.
  apply append_cons in E as [[-> ->]|(u' & -> & ->)].
  - by apply IHv.
  - by exists u', v.
Qed.

Lemma deriv_Lang (r : regex) : forall (d : ascii) (u : string),
  Lang (deriv d r) u <-> Lang r (String d u).
Proof.
  induction r as [| |c| |r1 IH1 r2 IH2|r1 IH1 r2 IH2|r IH]; intros d u; simpl.
  - split; inversion 1.
  - split; inversion 1.
  - destruct (same_letter c d) eqn:E; split.
    + inversion 1. by constructor.
    + inversion 1; subst. constructor.
    + inversion 1.
    + inversion 1; subst. congruence.
  - destruct (line_terminator d) eqn:E; split.
    + inversion 1.
    + inversion 1; subst. congruence.
    + inversion 1. by constructor.
    + inversion 1; subst. constructor.
  - assert (Lang (Cat (deriv d r1) r2) u -> Lang (Cat r1 r2) (String d u)) as Hleft.
    { inversion 1 as [| | |? ? x y Hx Hy| | | |]; subst.
      apply IH1 in Hx. exact (Lang_Cat r1 r2 (String d x) y Hx Hy). }
    destruct (nullable r1) eqn:En; split.
    + inversion 1 as [| | | |? ? ? Hl|? ? ? Hr| |]; subst; [by apply Hleft|].
      apply IH2 in Hr. apply nullable_Lang in En.
      exact (Lang_Cat r1 r2 EmptyString (String d u) En Hr).
    + inversion 1 as [| | |? ? x y Hx Hy [E1 E2] E| | | |]; subst.
      apply append_cons in E as [[-> ->]|(x' & -> & ->)].
      * apply Lang_Alt_r. by apply IH2.
      * apply Lang_Alt_l. constructor; [by apply IH1|done].
    + exact Hleft.
    + inversion 1 as [| | |? ? x y Hx Hy [E1 E2] E| | | |]; subst.
      apply append_cons in E as [[-> ->]|(x' & -> & ->)].
      * apply nullable_Lang in Hx. congruence.
      * constructor; [by apply IH1|done].
  - split.
    + inversion 1; subst; [apply Lang_Alt_l; by apply IH1|apply Lang_Alt_r; by apply IH2].
    + inversion 1; subst; [apply Lang_Alt_l; by apply IH1|apply Lang_Alt_r; by apply IH2].
  - split.
    + inversion 1 as [| | |? ? x y Hx Hy| | | |]; subst.
      apply IH in Hx. exact (Lang_Star_more r (String d x) y Hx Hy).
    + intros H.
      destruct (Lang_Star_cons_inv r _ H d u eq_refl) as (x & y & -> & Hx & Hy).
      constructor; [by apply IH|done].
Qed.

(** [match_here] finds exactly the matches that start the string. *)
Lemma match_here_Lang (s : string) : forall r : regex,
  match_here r s = true <-> exists u v, s = u +:+ v /\ Lang r u.
Proof.
  induction s as [|d s IH]; intros r; cbn [match_here].
  - rewrite orb_false_r, nullable_Lang. split.
    + intros H. by exists EmptyString, EmptyString.
    + intros (u & v & E & H). symmetry in E. by apply append_empty in E as [-> _].
  - rewrite orb_true_iff, nullable_Lang, IH. split.
    + intros [H|(u & v & -> & H)].
      * by exists EmptyString, (String d s).
      * exists (String d u), v. split; [done|]. by apply deriv_Lang.
    + intros (u & v & E & H). symmetry in E.
      apply append_cons in E as [[-> _]|(u' & -> & ->)].
      * by left.
      * right. exists u', v. split; [done|]. by apply deriv_Lang.
Qed.

(** [search] finds exactly the matches that lie anywhere in the string. *)
Lemma search_Lang (r : regex) (s : string) :
  search r s = true <-> exists t u v, s = t +:+ (u +:+ v) /\ Lang r u.
Proof.
  induction s as [|d s IH]; cbn [search].
  - rewrite orb_false_r, match_here_Lang. split.
    + intros (u & v & E & H). by exists EmptyString, u, v.
    + intros (t & u & v & E & H). symmetry in E.
      apply append_empty in E as [-> E]. simpl. eauto.
  - rewrite orb_true_iff, match_here_Lang, IH. split.
    + intros [(u & v & E & H)|(t & u & v & -> & H)].
      * exists EmptyString, u, v. split; [exact E|exact H].
      * exists (String d t), u, v. split; [reflexivity|exact H].
    + intros (t & u & v & E & H). destruct t as [|c t].
      * rewrite append_nil_l in E. left. eauto.
      * rewrite append_String in E. injection E as <- ->. right. eauto.
Qed.

End RegExpSpec.

(** ** Mutating one role, read from another *)

Lemma mutate_frame (P C : loc) (m : Role.mutation) (σ σ' : Role.store)
    (meC : Role.t) (eff : list string) :
  P <> C ->
  Role.roles σ !! C = Some meC ->
  Role.arrays σ !! Role.permissions meC = Some eff ->
  (forall meP, Role.roles σ !! P = Some meP -> Role.permissions meP <> Role.permissions meC) ->
  Role.mutate P m σ = Some σ' ->
  Role.roles σ' !! C = Some meC /\
  Role.arrays σ' !! Role.permissions meC = Some eff /\
  (m <> Role.by_set (Role.permissions meC) ->
   forall meP, Role.roles σ' !! P = Some meP -> Role.permissions meP <> Role.permissions meC).
Proof.
  intros Hne HC Heff Hapart Hrun.
  destruct (Role.roles σ !! P) as [meP|] eqn:HP.
  2:{ destruct m; simpl in Hrun; unfold Role.set, Role.add, Role.remove in Hrun;
      rewrite HP in Hrun; discriminate. }
  pose proof (lookup_lt_Some _ _ _ HP) as HltP.
  pose proof (lookup_lt_Some _ _ _ Heff) as HltC.
  specialize (Hapart meP eq_refl).
  destruct m as [a|x|x]; simpl in Hrun.
  - rewrite (set_runs P a σ meP HP) in Hrun. injection Hrun as <-. simpl.
    rewrite list_lookup_insert_ne by done. split; [done|]. split; [done|].
    intros Hm meP'. rewrite list_lookup_insert_eq by done. intros [= <-]. simpl.
    congruence.
  - destruct (Role.arrays σ !! Role.permissions meP) as [effP|] eqn:HeffP.
    2:{ unfold Role.add in Hrun. rewrite HP in Hrun. simpl in Hrun.
        rewrite HeffP in Hrun. discriminate. }
    rewrite (add_runs P x σ meP effP HP HeffP) in Hrun. injection Hrun as <-.
    destruct (JS.includes effP x).
    + split; [done|]. split; [done|]. intros _ meP'. rewrite HP. by intros [= <-].
    + simpl. split; [done|]. rewrite list_lookup_insert_ne by done.
      split; [done|]. intros _ meP'. rewrite HP. by intros [= <-].
  - destruct (Role.arrays σ !! Role.permissions meP) as [effP|] eqn:HeffP.
    2:{ unfold Role.remove in Hrun. rewrite HP in Hrun. simpl in Hrun.
        rewrite HeffP in Hrun. discriminate. }
    rewrite (remove_runs P x σ meP effP HP HeffP) in Hrun. injection Hrun as <-.
    simpl. rewrite list_lookup_insert_ne by done. split; [done|].
    rewrite lookup_app_l by done. split; [done|].
    intros _ meP'. rewrite list_lookup_insert_eq by done. intros [= <-]. simpl. lia.
Qed.

Lemma mutations_frame (P C : loc) (meC : Role.t) (eff : list string)
    (ms : list Role.mutation) : forall (σ σ' : Role.store),
  P <> C ->
  Role.roles σ !! C = Some meC ->
  Role.arrays σ !! Role.permissions meC = Some eff ->
  (forall meP, Role.roles σ !! P = Some meP -> Role.permissions meP <> Role.permissions meC) ->
  Forall (fun m => m <> Role.by_set (Role.permissions meC)) ms ->
  Role.forEach (Role.mutate P) ms σ = Some σ' ->
  Role.roles σ' !! C = Some meC /\
  Role.arrays σ' !! Role.permissions meC = Some eff.
Proof.
  induction ms as [|m ms IH]; intros σ σ' Hne HC Heff Hapart Hms Hrun; simpl in Hrun.
  - injection Hrun as <-. done.
  - apply Forall_cons in Hms as [Hm Hms].
    destruct (Role.mutate P m σ) as [σ1|] eqn:Hstep; [|discriminate]. simpl in Hrun.
    destruct (mutate_frame P C m σ σ1 meC eff) as (HC1 & Heff1 & Hapart1); try done.
    apply (IH σ1 σ'); try done. by apply Hapart1.
Qed.

(** ** The scenarios *)

Example user_store_built :
  Scenario.new_Role "1" "user" internal ["user:voice"] None Role.empty
  = Some (0, Scenario.user_store).
Proof. reflexivity. Qed.

Example raider_effective :
  Role.effectivePermissions 1 Scenario.raider_built
  = Some ["command:run:love_raider"; "user:voice"].
Proof. reflexivity. Qed.

(** The argument of raider names an existing array and an existing parent. *)
Lemma raider_ready : ready Scenario.raider Scenario.raider_store.
Proof.
  split.
  - eexists. reflexivity.
  - repeat constructor. eexists. reflexivity.
Qed.

(** Decidable facts about concrete lists are settled by evaluation. *)
Ltac by_evaluation := refine (bool_decide_unpack _ _); vm_compute; exact I.

(** * The claims *)

(** C1.  The first wildcard entry does decide alone, but not by a prefix
    test: [has] returns at the first entry with a * segment the result of
    an expression searched anywhere in the permission.  With the entries
    channel:* and zzz:* the permission user:channel:x does not start with
    channel, so the prefix test of the first wildcard entry fails, and [has]
    returns true.  The entries user:* and channel:* do refuse
    channel:quote:delete. *)
Theorem first_wildcard_not_prefix_test :
  (wildcard_entry_by_spec "channel:*" = true /\
   wildcard_entry "channel:*" = true /\
   ci_prefix "channel" "user:channel:x" = false /\
   Scenario.has_of ["channel:*"; "zzz:*"] "user:channel:x" = Some (Return true)) /\
  Scenario.has_of ["user:*"; "channel:*"] "channel:quote:delete" = Some (Return false).
Proof. repeat split; vm_compute; reflexivity. Qed.

(** C2.  [has] treats as a wildcard entry any entry with a * segment, last
    or not, and tests its expression anywhere in the permission.  The entry
    channel:*:delete, whose last segment is not the marker, grants
    channel:quote; the entry channel:* grants user:channel:x, which does
    not start with channel. *)
Theorem wildcard_not_last_not_prefix :
  (wildcard_entry_by_spec "channel:*:delete" = false /\
   wildcard_entry "channel:*:delete" = true /\
   Scenario.has_of ["channel:*:delete"] "channel:quote" = Some (Return true)) /\
  (ci_prefix "channel" "user:channel:x" = false /\
   Scenario.has_of ["channel:*"] "user:channel:x" = Some (Return true)).
Proof. repeat split; vm_compute; reflexivity. Qed.

(** C3.  Exact match: a permission that is literally an entry of the
    role's current effective permissions is granted by [has], whatever
    wildcard entries the list holds and wherever they stand. *)
Theorem has_exact_match (this : loc) (σ : Role.store) (eff : list string) (p : string) :
  Role.effectivePermissions this σ = Some eff ->
  p ∈ eff ->
  Role.has this p σ = Some (Return true).
Proof.
  intros Heff Hin. rewrite (has_unfold this σ eff p Heff).
  f_equal. by apply has_in_entry.
Qed.

(** Witness of C3: the role raider, which inherits user:voice. *)
Lemma has_exact_match_witness :
  Role.effectivePermissions 1 Scenario.raider_built
    = Some ["command:run:love_raider"; "user:voice"] /\
  "user:voice" ∈ ["command:run:love_raider"; "user:voice"] /\
  Role.has 1 "user:voice" Scenario.raider_built = Some (Return true).
Proof.
  assert (Role.effectivePermissions 1 Scenario.raider_built
          = Some ["command:run:love_raider"; "user:voice"]) as Heff by reflexivity.
  assert ("user:voice" ∈ ["command:run:love_raider"; "user:voice"]) as Hin
    by by_evaluation.
  split; [exact Heff|]. split; [exact Hin|].
  exact (has_exact_match 1 Scenario.raider_built _ "user:voice" Heff Hin).
Defined.

(** C4.  [rawPermissions] does not stay as constructed: on a role built
    without parents, [add] pushes onto the one array both fields hold, so
    the raw permissions grow and [hasInRaw] answers true for a permission
    the constructor never received. *)
Theorem add_changes_raw_permissions :
  Scenario.add_then_raw = Some (true, ["user:voice"; "channel:quote:delete"]).
Proof. vm_compute. reflexivity. Qed.

(** C5.  Construction postcondition: a role built without parents has the
    same effective permissions as raw permissions, as sets; a role built
    with parents has effective permissions that include its raw permissions
    and the effective permissions of every parent. *)
Theorem construction_postcondition (kebabCase : string -> string)
    (u : UserRole.t) (σ : Role.store) :
  ready u σ ->
  exists (this : loc) (σ' : Role.store) (raw eff : list string),
    Role.constructor kebabCase u σ = Some (this, σ') /\
    Role.rawPermissionsOf this σ' = Some raw /\
    Role.effectivePermissions this σ' = Some eff /\
    (parents_of u = [] -> forall x, x ∈ eff <-> x ∈ raw) /\
    (forall x, x ∈ raw -> x ∈ eff) /\
    (forall P, P ∈ parents_of u ->
       exists theirs, Role.effectivePermissions P σ' = Some theirs /\
                      forall x, x ∈ theirs -> x ∈ eff).
Proof.
  intros [[own Hown] Hparents].
  destruct (constructor_runs kebabCase u σ own Hown Hparents)
    as (σ' & me & Hrun & Hroles & Hraw & Hpre & Heff & Hnone & Hfresh).
  assert (Hme : Role.roles σ' !! length (Role.roles σ) = Some me).
  { rewrite Hroles. by rewrite list_lookup_middle. }
  exists (length (Role.roles σ)), σ', own, (inherited σ (parents_of u) own).
  split; [done|]. split; [|split; [|split; [|split]]].
  - rewrite (rawPermissionsOf_unfold _ _ _ Hme), Hraw.
    by eapply prefix_lookup_Some.
  - by rewrite (effectivePermissions_unfold _ _ _ Hme).
  - intros Hnil x. by rewrite Hnil.
  - intros x Hx. by apply inherited_grows.
  - intros P HP.
    pose proof (proj1 (Forall_forall _ _) Hparents P HP) as [theirs Htheirs].
    exists theirs. split.
    + pose proof Htheirs as (parent & Hparent & Harr)%effectivePermissions_Some.
      unfold Role.effectivePermissions. rewrite Hroles.
      rewrite lookup_app_l by (by eapply lookup_lt_Some). rewrite Hparent. simpl.
      by eapply prefix_lookup_Some.
    + intros x Hx. by eapply inherited_covers.
Qed.

(** Witness of C5: the construction of raider. *)
Lemma construction_postcondition_witness :
  ready Scenario.raider Scenario.raider_store /\
  exists (this : loc) (σ' : Role.store) (raw eff : list string),
    Role.constructor Scenario.kebabCase Scenario.raider Scenario.raider_store
      = Some (this, σ') /\
    Role.rawPermissionsOf this σ' = Some raw /\
    Role.effectivePermissions this σ' = Some eff /\
    (parents_of Scenario.raider = [] -> forall x, x ∈ eff <-> x ∈ raw) /\
    (forall x, x ∈ raw -> x ∈ eff) /\
    (forall P, P ∈ parents_of Scenario.raider ->
       exists theirs, Role.effectivePermissions P σ' = Some theirs /\
                      forall x, x ∈ theirs -> x ∈ eff).
Proof.
  split; [exact raider_ready|].
  exact (construction_postcondition Scenario.kebabCase Scenario.raider
           Scenario.raider_store raider_ready).
Defined.

(** Counterexample to C6 as stated: a role built without parents from an
    array that repeats an entry has that entry twice in its effective
    permissions. *)
Lemma repeated_entry_kept :
  exists eff : list string,
    Scenario.repeated_entry = Some eff /\ ~ NoDup eff.
Proof.
  exists ["user:voice"; "user:voice"]. split; [vm_compute; reflexivity|].
  intros Hnd. apply NoDup_cons in Hnd as [Hnot _]. apply Hnot. left.
Qed.

(** C6, amended.  Construction with at least one parent yields effective
    permissions without duplicates, and [add] and [remove] keep a list
    without duplicates so; construction without parents and [set] install
    the caller's array as it is. *)
Theorem duplicates_only_from_caller :
  (forall (kebabCase : string -> string) (u : UserRole.t) (σ : Role.store)
          (own : list string),
      ready u σ ->
      Role.arrays σ !! UserRole.permissions u = Some own ->
      exists (this : loc) (σ' : Role.store) (eff : list string),
        Role.constructor kebabCase u σ = Some (this, σ') /\
        Role.effectivePermissions this σ' = Some eff /\
        (parents_of u <> [] -> NoDup eff) /\
        (parents_of u = [] -> eff = own)) /\
  (forall (this a : loc) (σ : Role.store) (given : list string),
      is_Some (Role.roles σ !! this) ->
      Role.arrays σ !! a = Some given ->
      exists σ' : Role.store,
        Role.set this a σ = Some (this, σ') /\
        Role.effectivePermissions this σ' = Some given) /\
  (forall (this : loc) (p : string) (σ : Role.store) (eff : list string),
      Role.effectivePermissions this σ = Some eff ->
      NoDup eff ->
      exists (σ' : Role.store) (eff' : list string),
        Role.add this p σ = Some σ' /\
        Role.effectivePermissions this σ' = Some eff' /\
        NoDup eff') /\
  (forall (this : loc) (p : string) (σ : Role.store) (eff : list string),
      Role.effectivePermissions this σ = Some eff ->
      NoDup eff ->
      exists (σ' : Role.store) (eff' : list string),
        Role.remove this p σ = Some σ' /\
        Role.effectivePermissions this σ' = Some eff' /\
        NoDup eff').
Proof.
  split; [|split; [|split]].
  - intros kebabCase u σ own [_ Hparents] Hown.
    destruct (constructor_runs kebabCase u σ own Hown Hparents)
      as (σ' & me & Hrun & Hroles & Hraw & Hpre & Heff & _ & _).
    assert (Hme : Role.roles σ' !! length (Role.roles σ) = Some me).
    { rewrite Hroles. by rewrite list_lookup_middle. }
    exists (length (Role.roles σ)), σ', (inherited σ (parents_of u) own).
    split; [done|]. split; [by rewrite (effectivePermissions_unfold _ _ _ Hme)|].
    split.
    + intros Hsome. apply inherited_NoDup. by left.
    + by intros ->.
  - intros this a σ given [me Hme] Hgiven. eexists. split; [by apply set_runs|].
    unfold Role.effectivePermissions. simpl.
    rewrite list_lookup_insert_eq by (by eapply lookup_lt_Some). done.
  - intros this p σ eff Heff Hnd.
    destruct (add_effective this p σ eff Heff) as (σ' & Hrun & Heff').
    exists σ'. eexists. split; [done|]. split; [done|].
    destruct (JS.includes eff p) eqn:E; [done|].
    apply includes_false in E. apply NoDup_app. split; [done|]. split.
    + intros y Hy Hp. apply list_elem_of_singleton in Hp. by subst.
    + apply NoDup_singleton.
  - intros this p σ eff Heff Hnd.
    destruct (remove_effective this p σ eff Heff) as (σ' & Hrun & Heff').
    exists σ'. eexists. split; [done|]. split; [done|].
    by apply filter_keeps_NoDup.
Qed.

(** Witness of C6 as amended: the role raider. *)
Lemma duplicates_only_from_caller_witness :
  (exists (this : loc) (σ' : Role.store) (eff : list string),
     Role.constructor Scenario.kebabCase Scenario.raider Scenario.raider_store
       = Some (this, σ') /\
     Role.effectivePermissions this σ' = Some eff /\
     (parents_of Scenario.raider <> [] -> NoDup eff) /\
     (parents_of Scenario.raider = [] -> eff = ["command:run:love_raider"])) /\
  (exists σ' : Role.store,
     Role.set 1 0 Scenario.raider_built = Some (1, σ') /\
     Role.effectivePermissions 1 σ' = Some ["user:voice"]) /\
  (NoDup ["command:run:love_raider"; "user:voice"] /\
   exists (σ' : Role.store) (eff' : list string),
     Role.add 1 "channel:quote:delete" Scenario.raider_built = Some σ' /\
     Role.effectivePermissions 1 σ' = Some eff' /\
     NoDup eff') /\
  (exists (σ' : Role.store) (eff' : list string),
     Role.remove 1 "user:voice" Scenario.raider_built = Some σ' /\
     Role.effectivePermissions 1 σ' = Some eff' /\
     NoDup eff').
Proof.
  assert (NoDup ["command:run:love_raider"; "user:voice"]) as Hnd by by_evaluation.
  destruct duplicates_only_from_caller as (Hnew & Hset & Hadd & Hremove).
  split; [|split; [|split]].
  - apply (Hnew Scenario.kebabCase Scenario.raider Scenario.raider_store).
    + exact raider_ready.
    + reflexivity.
  - apply (Hset 1 0 Scenario.raider_built).
    + eexists. reflexivity.
    + reflexivity.
  - split; [exact Hnd|].
    apply (Hadd 1 "channel:quote:delete" Scenario.raider_built
             ["command:run:love_raider"; "user:voice"]); [reflexivity|exact Hnd].
  - apply (Hremove 1 "user:voice" Scenario.raider_built
             ["command:run:love_raider"; "user:voice"]); [reflexivity|exact Hnd].
Defined.

(** C7.  [hasInRaw] is a literal lookup in the raw permissions: it returns
    true exactly when the string is an entry of [rawPermissions], with no
    wildcard expansion and no inheritance.  A role that inherits a
    permission from a parent without declaring it has it under [has] and
    lacks it under [hasInRaw]. *)
Theorem hasInRaw_literal :
  (forall (this : loc) (σ : Role.store) (raw : list string) (p : string),
      Role.rawPermissionsOf this σ = Some raw ->
      exists b, Role.hasInRaw this p σ = Some b /\ (b = true <-> p ∈ raw)) /\
  (forall (kebabCase : string -> string) (u : UserRole.t) (σ : Role.store)
          (P : loc) (own theirs : list string) (x : string),
      ready u σ ->
      Role.arrays σ !! UserRole.permissions u = Some own ->
      P ∈ parents_of u ->
      Role.effectivePermissions P σ = Some theirs ->
      x ∈ theirs ->
      x ∉ own ->
      exists (this : loc) (σ' : Role.store),
        Role.constructor kebabCase u σ = Some (this, σ') /\
        Role.hasInRaw this x σ' = Some false /\
        Role.has this x σ' = Some (Return true)).
Proof.
  split.
  - intros this σ raw p Hraw. exists (bool_decide (p ∈ raw)). split.
    + rewrite (hasInRaw_unfold this σ raw p Hraw). f_equal.
      apply hasInRaw_loop_decides.
    + apply bool_decide_eq_true.
  - intros kebabCase u σ P own theirs x [_ Hparents] Hown HP Htheirs Hx Hnot.
    destruct (constructor_runs kebabCase u σ own Hown Hparents)
      as (σ' & me & Hrun & Hroles & Hraw & Hpre & Heff & _ & _).
    assert (Hme : Role.roles σ' !! length (Role.roles σ) = Some me).
    { rewrite Hroles. by rewrite list_lookup_middle. }
    exists (length (Role.roles σ)), σ'. split; [done|]. split.
    + rewrite (hasInRaw_unfold _ σ' own).
      * f_equal. rewrite hasInRaw_loop_decides. by apply bool_decide_eq_false.
      * rewrite (rawPermissionsOf_unfold _ _ _ Hme), Hraw.
        by eapply prefix_lookup_Some.
    + rewrite (has_unfold _ σ' (inherited σ (parents_of u) own)).
      * f_equal. apply has_in_entry. by eapply inherited_covers.
      * by rewrite (effectivePermissions_unfold _ _ _ Hme).
Qed.

(** Witness of C7: the role raider and the permission user:voice it inherits. *)
Lemma hasInRaw_literal_witness :
  (Role.rawPermissionsOf 1 Scenario.raider_built = Some ["command:run:love_raider"] /\
   exists b, Role.hasInRaw 1 "user:voice" Scenario.raider_built = Some b /\
             (b = true <-> "user:voice" ∈ ["command:run:love_raider"])) /\
  (("user:voice" ∉ ["command:run:love_raider"]) /\
   exists (this : loc) (σ' : Role.store),
     Role.constructor Scenario.kebabCase Scenario.raider Scenario.raider_store
       = Some (this, σ') /\
     Role.hasInRaw this "user:voice" σ' = Some false /\
     Role.has this "user:voice" σ' = Some (Return true)).
Proof.
  split.
  - split; [reflexivity|].
    apply (proj1 hasInRaw_literal 1 Scenario.raider_built). reflexivity.
  - split; [by_evaluation|].
    apply (proj2 hasInRaw_literal Scenario.kebabCase Scenario.raider
             Scenario.raider_store 0 ["command:run:love_raider"] ["user:voice"]).
    + exact raider_ready.
    + reflexivity.
    + by_evaluation.
    + reflexivity.
    + by_evaluation.
    + by_evaluation.
Defined.

(** Counterexample to C8 as stated: after [remove] of channel:quote:delete
    the role still holds channel:* and [has] answers true. *)
Lemma removed_still_granted :
  Scenario.remove_then_has = Some (Return true).
Proof. vm_compute. reflexivity. Qed.

(** C8, amended.  After [add] of a permission, [has] returns true for it.
    After [remove] of a permission it is no longer an entry, [has] is left
    to the wildcard entries, and it returns false when none remains.  [add]
    of a permission already present changes nothing. *)
Theorem add_remove_then_has :
  (forall (this : loc) (p : string) (σ : Role.store) (eff : list string),
      Role.effectivePermissions this σ = Some eff ->
      exists σ' : Role.store,
        Role.add this p σ = Some σ' /\ Role.has this p σ' = Some (Return true)) /\
  (forall (this : loc) (p : string) (σ : Role.store) (eff : list string),
      Role.effectivePermissions this σ = Some eff ->
      exists (σ' : Role.store) (eff' : list string),
        Role.remove this p σ = Some σ' /\
        Role.effectivePermissions this σ' = Some eff' /\
        (p ∉ eff') /\
        (Forall (fun e => wildcard_entry e = false) eff' ->
         Role.has this p σ' = Some (Return false)) /\
        (forall (before after : list string) (entry : string),
            eff' = before ++ entry :: after ->
            Forall (fun e => wildcard_entry e = false) before ->
            wildcard_entry entry = true ->
            Role.has this p σ' = Some (wildcard_test entry p))) /\
  (forall (this : loc) (p : string) (σ : Role.store) (eff : list string),
      Role.effectivePermissions this σ = Some eff ->
      p ∈ eff ->
      Role.add this p σ = Some σ).
Proof.
  split; [|split].
  - intros this p σ eff Heff.
    destruct (add_effective this p σ eff Heff) as (σ' & Hrun & Heff').
    exists σ'. split; [done|]. rewrite (has_unfold this σ' _ p Heff').
    f_equal. apply has_in_entry. destruct (JS.includes eff p) eqn:E.
    + by apply includes_true.
    + apply elem_of_app. right. by apply list_elem_of_singleton.
  - intros this p σ eff Heff.
    destruct (remove_effective this p σ eff Heff) as (σ' & Hrun & Heff').
    exists σ'. eexists. split; [done|]. split; [done|].
    assert (p ∉ JS.filter (fun perm => negb (String.eqb perm p)) eff) as Hgone.
    { rewrite filter_drops. tauto. }
    assert (Role.has this p σ' =
            Some (has_loop (JS.filter (fun perm => negb (String.eqb perm p)) eff) p)) as Hhas.
    { rewrite (has_unfold this σ' _ p Heff'). unfold has_in.
      apply includes_false in Hgone. by rewrite Hgone. }
    split; [done|]. split.
    + intros Hnone. rewrite Hhas. f_equal. by apply has_loop_none.
    + intros before after entry E Hbefore Hentry. rewrite Hhas, E. f_equal.
      by apply has_loop_first.
  - intros this p σ eff Heff Hin.
    pose proof Heff as (me & Hme & Harr)%effectivePermissions_Some.
    rewrite (add_runs this p σ me eff Hme Harr).
    apply includes_true in Hin. by rewrite Hin.
Qed.

(** Witness of C8 as amended: the role raider. *)
Lemma add_remove_then_has_witness :
  (exists σ' : Role.store,
     Role.add 1 "channel:quote:delete" Scenario.raider_built = Some σ' /\
     Role.has 1 "channel:quote:delete" σ' = Some (Return true)) /\
  (exists (σ' : Role.store) (eff' : list string),
     Role.remove 1 "user:voice" Scenario.raider_built = Some σ' /\
     Role.effectivePermissions 1 σ' = Some eff' /\
     ("user:voice" ∉ eff') /\
     (Forall (fun e => wildcard_entry e = false) eff' ->
      Role.has 1 "user:voice" σ' = Some (Return false)) /\
     (forall (before after : list string) (entry : string),
         eff' = before ++ entry :: after ->
         Forall (fun e => wildcard_entry e = false) before ->
         wildcard_entry entry = true ->
         Role.has 1 "user:voice" σ' = Some (wildcard_test entry "user:voice"))) /\
  ("user:voice" ∈ ["command:run:love_raider"; "user:voice"] /\
   Role.add 1 "user:voice" Scenario.raider_built = Some Scenario.raider_built).
Proof.
  destruct add_remove_then_has as (Hadd & Hremove & Hsame).
  split; [|split].
  - apply (Hadd 1 "channel:quote:delete" Scenario.raider_built
             ["command:run:love_raider"; "user:voice"]). reflexivity.
  - apply (Hremove 1 "user:voice" Scenario.raider_built
             ["command:run:love_raider"; "user:voice"]). reflexivity.
  - assert ("user:voice" ∈ ["command:run:love_raider"; "user:voice"]) as Hin
      by by_evaluation.
    split; [exact Hin|].
    apply (Hsame 1 "user:voice" Scenario.raider_built
             ["command:run:love_raider"; "user:voice"]); [reflexivity|exact Hin].
Defined.

(** C9.  Mutating a parent after a child was built from it leaves the
    child's effective permissions as they were, and with them the result of
    every [has] on the child: after one [set], [add] or [remove] on the
    parent, and after any number of them in any order, [set] being handed
    any array but the child's own. *)
Theorem parent_mutations_leave_child (kebabCase : string -> string)
    (u : UserRole.t) (σ σ1 : Role.store) (P C : loc) (meC : Role.t) :
  ready u σ ->
  P ∈ parents_of u ->
  Role.constructor kebabCase u σ = Some (C, σ1) ->
  Role.roles σ1 !! C = Some meC ->
  exists eff : list string,
    Role.effectivePermissions C σ1 = Some eff /\
    (forall (m : Role.mutation) (σ2 : Role.store),
        Role.mutate P m σ1 = Some σ2 ->
        Role.effectivePermissions C σ2 = Some eff /\
        forall p, Role.has C p σ2 = Role.has C p σ1) /\
    (forall (ms : list Role.mutation) (σ2 : Role.store),
        Forall (fun m => m <> Role.by_set (Role.permissions meC)) ms ->
        Role.forEach (Role.mutate P) ms σ1 = Some σ2 ->
        Role.effectivePermissions C σ2 = Some eff /\
        forall p, Role.has C p σ2 = Role.has C p σ1).
Proof.
  intros [[own Hown] Hparents] HP Hrun HmeC.
  destruct (constructor_runs kebabCase u σ own Hown Hparents)
    as (σ' & me & Hrun' & Hroles & Hraw & Hpre & Heff & _ & Hfresh).
  rewrite Hrun' in Hrun. injection Hrun as <- <-.
  assert (me = meC) as ->.
  { rewrite Hroles, list_lookup_middle in HmeC by done. congruence. }
  pose proof (proj1 (Forall_forall _ _) Hparents P HP) as HPready.
  pose proof HPready as [theirs (parent & Hparent & Htheirs)%effectivePermissions_Some].
  pose proof (lookup_lt_Some _ _ _ Hparent) as HltP.
  assert (parents_of u <> []) as Hsome by (intros E; rewrite E in HP; by apply elem_of_nil in HP).
  specialize (Hfresh Hsome).
  set (eff := inherited σ (parents_of u) own) in *.
  assert (P <> length (Role.roles σ)) as Hne by lia.
  assert (forall meP, Role.roles σ' !! P = Some meP ->
                      Role.permissions meP <> Role.permissions meC) as Hapart.
  { intros meP. rewrite Hroles, lookup_app_l by done. rewrite Hparent. intros [= <-].
    apply lookup_lt_Some in Htheirs. lia. }
  assert (Role.effectivePermissions (length (Role.roles σ)) σ' = Some eff) as H1.
  { by rewrite (effectivePermissions_unfold _ _ _ HmeC). }
  assert (forall σ2, Role.roles σ2 !! length (Role.roles σ) = Some meC ->
            Role.arrays σ2 !! Role.permissions meC = Some eff ->
            Role.effectivePermissions (length (Role.roles σ)) σ2 = Some eff /\
            forall p, Role.has (length (Role.roles σ)) p σ2
                      = Role.has (length (Role.roles σ)) p σ') as Hsame.
  { intros σ2 HC2 Heff2.
    assert (Role.effectivePermissions (length (Role.roles σ)) σ2 = Some eff) as H2.
    { by rewrite (effectivePermissions_unfold _ _ _ HC2). }
    split; [done|]. intros p.
    by rewrite (has_unfold _ _ _ p H1), (has_unfold _ _ _ p H2). }
  exists eff. split; [done|]. split.
  - intros m σ2 Hstep.
    destruct (mutate_frame P (length (Role.roles σ)) m σ' σ2 meC eff)
      as (HC2 & Heff2 & _); try done.
    by apply Hsame.
  - intros ms σ2 Hms Hmut.
    destruct (mutations_frame P (length (Role.roles σ)) meC eff ms σ' σ2)
      as [HC2 Heff2]; try done.
    by apply Hsame.
Qed.

(** Witness of C9: raider and its parent user, mutated once and three
    times. *)
Lemma parent_mutations_leave_child_witness :
  Role.forEach (Role.mutate 0)
    [Role.by_add "channel:quote:delete"; Role.by_remove "user:voice"; Role.by_set 0]
    Scenario.raider_built = Some Scenario.raider_after /\
  Role.mutate 0 (Role.by_add "channel:quote:delete") Scenario.raider_built
    = Some Scenario.raider_after_add /\
  exists eff : list string,
    Role.effectivePermissions 1 Scenario.raider_built = Some eff /\
    (Role.effectivePermissions 1 Scenario.raider_after_add = Some eff /\
     forall p, Role.has 1 p Scenario.raider_after_add
               = Role.has 1 p Scenario.raider_built) /\
    (Role.effectivePermissions 1 Scenario.raider_after = Some eff /\
     forall p, Role.has 1 p Scenario.raider_after = Role.has 1 p Scenario.raider_built).
Proof.
  split; [reflexivity|]. split; [reflexivity|].
  destruct (parent_mutations_leave_child Scenario.kebabCase Scenario.raider
              Scenario.raider_store Scenario.raider_built 0 1
              (Role.make "2" "raider" "raider" custom 1 2 [0] 0%float))
    as (eff & Heff & Hone & Hmany).
  - exact raider_ready.
  - by_evaluation.
  - reflexivity.
  - reflexivity.
  - exists eff. split; [exact Heff|]. split.
    + apply (Hone (Role.by_add "channel:quote:delete")). reflexivity.
    + apply (Hmany [Role.by_add "channel:quote:delete"; Role.by_remove "user:voice";
                    Role.by_set 0]).
      * repeat constructor; discriminate.
      * reflexivity.
Defined.

(** C10.  A role built with an empty [inherits] list keeps one array in
    both permission fields, so [add] of a permission that is not yet there
    extends [rawPermissions] too: [hasInRaw] then returns true for it. *)
Theorem add_reaches_raw_without_parents (kebabCase : string -> string)
    (u : UserRole.t) (σ : Role.store) (own : list string) (p : string) :
  parents_of u = [] ->
  Role.arrays σ !! UserRole.permissions u = Some own ->
  p ∉ own ->
  exists (this : loc) (σ1 σ2 : Role.store) (me : Role.t),
    Role.constructor kebabCase u σ = Some (this, σ1) /\
    Role.roles σ1 !! this = Some me /\
    Role.permissions me = Role.rawPermissions me /\
    Role.add this p σ1 = Some σ2 /\
    Role.rawPermissionsOf this σ2 = Some (own ++ [p]) /\
    Role.hasInRaw this p σ2 = Some true.
Proof.
  intros Hnil Hown Hnot.
  destruct (constructor_runs kebabCase u σ own Hown)
    as (σ1 & me & Hrun & Hroles & Hraw & Hpre & Heff & Hsame & _).
  { rewrite Hnil. constructor. }
  specialize (Hsame Hnil). rewrite Hnil in Heff. simpl in Heff.
  assert (Hme : Role.roles σ1 !! length (Role.roles σ) = Some me).
  { rewrite Hroles. by rewrite list_lookup_middle. }
  apply includes_false in Hnot.
  assert (Hraw2 : Role.rawPermissionsOf (length (Role.roles σ))
            (Role.Store (<[Role.permissions me := own ++ [p]]> (Role.arrays σ1)) (Role.roles σ1))
          = Some (own ++ [p])).
  { unfold Role.rawPermissionsOf. simpl. rewrite Hme. simpl.
    rewrite Hraw, <- Hsame. apply list_lookup_insert_eq. by eapply lookup_lt_Some. }
  eexists _, σ1, _, me. split; [exact Hrun|]. split; [done|].
  split; [congruence|]. split.
  - rewrite (add_runs _ p _ _ _ Hme Heff).
    by rewrite Hnot.
  - split; [done|]. rewrite (hasInRaw_unfold _ _ _ p Hraw2). f_equal.
    rewrite hasInRaw_loop_decides. apply bool_decide_eq_true.
    apply elem_of_app. right. by apply list_elem_of_singleton.
Qed.

(** Witness of C10: the construction of user. *)
Lemma add_reaches_raw_without_parents_witness :
  parents_of (UserRole.make "1" "user" internal 0 None None) = [] /\
  ("channel:quote:delete" ∉ ["user:voice"]) /\
  exists (this : loc) (σ1 σ2 : Role.store) (me : Role.t),
    Role.constructor Scenario.kebabCase (UserRole.make "1" "user" internal 0 None None)
      (Role.Store [["user:voice"]] []) = Some (this, σ1) /\
    Role.roles σ1 !! this = Some me /\
    Role.permissions me = Role.rawPermissions me /\
    Role.add this "channel:quote:delete" σ1 = Some σ2 /\
    Role.rawPermissionsOf this σ2 = Some (["user:voice"] ++ ["channel:quote:delete"]) /\
    Role.hasInRaw this "channel:quote:delete" σ2 = Some true.
Proof.
  split; [reflexivity|]. split; [by_evaluation|].
  apply (add_reaches_raw_without_parents Scenario.kebabCase
           (UserRole.make "1" "user" internal 0 None None)
           (Role.Store [["user:voice"]] []) ["user:voice"] "channel:quote:delete").
  - reflexivity.
  - reflexivity.
  - by_evaluation.
Defined.

(** * Further properties of the code *)

(** ** Splitting and joining entries *)

Lemma split_nonempty (sep : ascii) (s : string) :
  exists seg segs, JS.split sep s = seg :: segs.
Proof.
  destruct s as [|c s]; simpl; [by eauto|].
  destruct (Ascii.eqb c sep); [by eauto|].
  destruct (JS.split sep s); eauto.
Qed.

Lemma split_append_separator (sep : ascii) (s t : string) :
  JS.split sep (s +:+ String sep t) = JS.split sep s ++ JS.split sep t.
Proof.
  induction s as [|c s IH].
  - change (EmptyString +:+ String sep t) with (String sep t).
    cbn [JS.split]. by rewrite Ascii.eqb_refl.
  - change (String c s +:+ String sep t) with (String c (s +:+ String sep t)).
    cbn [JS.split]. rewrite IH. destruct (Ascii.eqb c sep); [done|].
    by destruct (split_nonempty sep s) as (seg & segs & ->).
Qed.

Lemma join_more (sep x seg : string) (segs : list string) :
  JS.join sep (x :: seg :: segs) = x +:+ sep +:+ JS.join sep (seg :: segs).
Proof. reflexivity. Qed.

Lemma join_split (sep : ascii) (s : string) :
  JS.join (String sep EmptyString) (JS.split sep s) = s.
Proof.
  induction s as [|c s IH]; [done|]. cbn [JS.split].
  destruct (split_nonempty sep s) as (seg & segs & E). rewrite E in *.
  destruct (Ascii.eqb c sep) eqn:Ec.
  - apply Ascii.eqb_eq in Ec as ->. rewrite join_more, IH. reflexivity.
  - destruct segs as [|seg' segs].
    + change (JS.join (String sep EmptyString) [seg]) with seg in IH.
      change (JS.join (String sep EmptyString) [String c seg]) with (String c seg).
      by rewrite IH.
    + rewrite join_more in *. rewrite <- IH. reflexivity.
Qed.

Lemma dropRight_snoc {A : Type} (l : list A) (x : A) :
  Lodash.dropRight (l ++ [x]) 1 = l.
Proof.
  unfold Lodash.dropRight. rewrite length_app. simpl.
  replace (length l + 1 - 1) with (length l) by lia.
  by rewrite take_app_length.
Qed.

(** The entry made of a prefix and a trailing marker is a wildcard entry,
    and the expression built for it holds the prefix. *)
Lemma trailing_wildcard_entry (pre : string) :
  wildcard_entry (pre +:+ ":*") = true /\
  Lodash.dropRight (JS.split ":" (pre +:+ ":*")) 1 = JS.split ":" pre.
Proof.
  unfold wildcard_entry. change (pre +:+ ":*") with (pre +:+ String ":" "*").
  rewrite (split_append_separator ":" pre "*").
  change (JS.split ":" "*") with ["*"]. split.
  - apply includes_true. apply elem_of_app. right. by apply list_elem_of_singleton.
  - apply dropRight_snoc.
Qed.

(** ** The loop over longer lists *)

Lemma has_loop_skip (before rest : list string) (p : string) :
  Forall (fun e => wildcard_entry e = false) before ->
  has_loop (before ++ rest) p = has_loop rest p.
Proof.
  induction 1 as [|e before He _ IH]; simpl; [done|].
  unfold wildcard_entry in He. by rewrite He.
Qed.

Lemma has_loop_stop (entries more : list string) (p : string) :
  Exists (fun e => wildcard_entry e = true) entries ->
  has_loop (entries ++ more) p = has_loop entries p.
Proof.
  induction entries as [|e entries IH]; intros Hex.
  - by apply Exists_nil in Hex.
  - simpl. destruct (JS.includes (JS.split ":" e) "*") eqn:E; [done|].
    apply IH. apply Exists_cons in Hex as [He|Hex]; [|done].
    unfold wildcard_entry in He. congruence.
Qed.

Lemma wildcard_or_not (entries : list string) :
  Exists (fun e => wildcard_entry e = true) entries \/
  Forall (fun e => wildcard_entry e = false) entries.
Proof.
  induction entries as [|e entries [IH|IH]].
  - right. constructor.
  - left. by apply Exists_cons_tl.
  - destruct (wildcard_entry e) eqn:E.
    + left. by apply Exists_cons_hd.
    + right. by constructor.
Qed.

Lemma ci_prefix_contains (lits s : string) :
  ci_prefix lits s = true -> ci_contains lits s = true.
Proof. intros H. destruct s; simpl; by rewrite H. Qed.

Lemma leading_star_source (rest : string) :
  exists tail : string,
    wildcard_source (JS.split ":" ("*:" +:+ rest)) = String "(" (String "*" tail).
Proof.
  change ("*:" +:+ rest) with ("*" +:+ String ":" rest).
  rewrite (split_append_separator ":" "*" rest).
  change (JS.split ":" "*") with ["*"].
  destruct (split_nonempty ":" rest) as (seg & segs & ->).
  unfold wildcard_source, Lodash.dropRight. simpl.
  destruct (take (length segs) (seg :: segs)); eexists; reflexivity.
Qed.

(** ** What [has] answers *)

(** X1.  A trailing wildcard: when the first wildcard entry of a role is a
    prefix followed by :* and the prefix holds no syntax character of
    regular expressions, [has] grants a permission that is not literally an
    entry exactly when the permission contains the prefix, letter case
    apart; so every permission that starts with the prefix is granted. *)
Theorem trailing_wildcard_grants (this : loc) (σ : Role.store)
    (before after : list string) (pre p : string) :
  Role.effectivePermissions this σ = Some (before ++ (pre +:+ ":*") :: after) ->
  p ∉ before ++ (pre +:+ ":*") :: after ->
  Forall (fun e => wildcard_entry e = false) before ->
  plain pre = true ->
  Role.has this p σ = Some (Return (ci_contains pre p)) /\
  (ci_prefix pre p = true -> Role.has this p σ = Some (Return true)).
Proof.
  intros Heff Hnot Hbefore Hplain.
  destruct (trailing_wildcard_entry pre) as [Hwild Hdrop].
  assert (Role.has this p σ = Some (Return (ci_contains pre p))) as Hhas.
  { rewrite (has_unfold this σ _ p Heff). unfold has_in.
    apply includes_false in Hnot. rewrite Hnot. f_equal.
    rewrite has_loop_first by done.
    unfold wildcard_test, wildcard_source. rewrite Hdrop.
    rewrite (join_split ":" pre). by apply RegExp_i_test_plain. }
  split; [done|]. intros Hstart. rewrite Hhas.
  by rewrite ci_prefix_contains.
Qed.

(** Witness of X1: user:* grants USER:ban. *)
Lemma trailing_wildcard_grants_witness :
  ("USER:ban" ∉ ["user:voice"] ++ ("user" +:+ ":*") :: ["channel:*"]) /\
  Role.has 0 "USER:ban" Scenario.three_entries = Some (Return true).
Proof.
  assert ("USER:ban" ∉ ["user:voice"] ++ ("user" +:+ ":*") :: ["channel:*"]) as Hnot
    by by_evaluation.
  split; [exact Hnot|].
  refine (proj2 (trailing_wildcard_grants 0 Scenario.three_entries ["user:voice"]
                   ["channel:*"] "user" "USER:ban" _ Hnot _ _) _).
  - reflexivity.
  - repeat constructor.
  - reflexivity.
  - reflexivity.
Defined.

(** X2.  A wildcard entry whose first segment is the marker and that has
    further segments makes [has] raise: when it is the first wildcard entry
    of a role, [has] throws the [SyntaxError] of the [RegExp] constructor for
    every permission that is not literally an entry. *)
Theorem leading_star_throws (this : loc) (σ : Role.store)
    (before after : list string) (rest p : string) :
  Role.effectivePermissions this σ = Some (before ++ ("*:" +:+ rest) :: after) ->
  p ∉ before ++ ("*:" +:+ rest) :: after ->
  Forall (fun e => wildcard_entry e = false) before ->
  Role.has this p σ = Some Throw.
Proof.
  intros Heff Hnot Hbefore.
  rewrite (has_unfold this σ _ p Heff). unfold has_in.
  apply includes_false in Hnot. rewrite Hnot. f_equal.
  rewrite has_loop_skip by done. cbn [has_loop].
  assert (JS.includes (JS.split ":" ("*:" +:+ rest)) "*" = true) as ->.
  { change ("*:" +:+ rest) with ("*" +:+ String ":" rest).
    rewrite (split_append_separator ":" "*" rest).
    apply includes_true. apply elem_of_app. left. by_evaluation. }
  destruct (leading_star_source rest) as [tail ->]. reflexivity.
Qed.

(** Witness of X2: the entry *:delete. *)
Lemma leading_star_throws_witness :
  ("channel:delete" ∉ ["user:voice"] ++ ("*:" +:+ "delete") :: []) /\
  Role.has 0 "channel:delete" Scenario.leading_star = Some Throw.
Proof.
  assert ("channel:delete" ∉ ["user:voice"] ++ ("*:" +:+ "delete") :: []) as Hnot
    by by_evaluation.
  split; [exact Hnot|].
  apply (leading_star_throws 0 Scenario.leading_star ["user:voice"] [] "delete"
           "channel:delete").
  - reflexivity.
  - exact Hnot.
  - repeat constructor.
Defined.

(** X3.  The marker alone grants everything: when the first wildcard entry
    of a role is the one-segment entry *, [has] returns true for every
    permission. *)
Theorem catch_all_grants (this : loc) (σ : Role.store)
    (before after : list string) (p : string) :
  Role.effectivePermissions this σ = Some (before ++ "*" :: after) ->
  Forall (fun e => wildcard_entry e = false) before ->
  Role.has this p σ = Some (Return true).
Proof.
  intros Heff Hbefore. rewrite (has_unfold this σ _ p Heff). unfold has_in.
  destruct (JS.includes (before ++ "*" :: after) p); [done|]. f_equal.
  rewrite has_loop_first by done. by destruct p.
Qed.

(** Witness of X3: a role holding user:voice and the marker. *)
Lemma catch_all_grants_witness :
  Role.effectivePermissions 0 Scenario.catch_all = Some (["user:voice"] ++ "*" :: []) /\
  Role.has 0 "channel:quote:delete" Scenario.catch_all = Some (Return true).
Proof.
  split; [reflexivity|].
  apply (catch_all_grants 0 Scenario.catch_all ["user:voice"] [] "channel:quote:delete").
  - reflexivity.
  - repeat constructor.
Defined.

(** X4.  Without wildcard entries [has] is literal membership: for a role
    none of whose entries has a * segment, [has] returns true exactly for
    the strings that are entries, letter case included. *)
Theorem has_without_wildcards (this : loc) (σ : Role.store) (eff : list string)
    (p : string) :
  Role.effectivePermissions this σ = Some eff ->
  Forall (fun e => wildcard_entry e = false) eff ->
  Role.has this p σ = Some (Return (bool_decide (p ∈ eff))).
Proof.
  intros Heff Hnone. rewrite (has_unfold this σ eff p Heff). f_equal.
  unfold has_in, JS.includes. destruct (bool_decide (p ∈ eff)); [done|].
  by apply has_loop_none.
Qed.

(** Witness of X4: raider has user:voice and not User:Voice. *)
Lemma has_without_wildcards_witness :
  Forall (fun e => wildcard_entry e = false) ["command:run:love_raider"; "user:voice"] /\
  Role.has 1 "user:voice" Scenario.raider_built = Some (Return true) /\
  Role.has 1 "User:Voice" Scenario.raider_built = Some (Return false).
Proof.
  assert (Forall (fun e => wildcard_entry e = false)
            ["command:run:love_raider"; "user:voice"]) as Hnone
    by (repeat constructor).
  split; [exact Hnone|]. split.
  - exact (has_without_wildcards 1 Scenario.raider_built _ "user:voice" eq_refl Hnone).
  - exact (has_without_wildcards 1 Scenario.raider_built _ "User:Voice" eq_refl Hnone).
Defined.

(** X5.  A wildcard entry added later never takes over: [add] appends at
    the end, so on a role that already has a wildcard entry, adding any
    entry leaves the answer of [has] as it was for every other permission
    that is not literally an entry. *)
Theorem add_after_wildcard (this : loc) (σ : Role.store) (eff : list string)
    (q p : string) :
  Role.effectivePermissions this σ = Some eff ->
  Exists (fun e => wildcard_entry e = true) eff ->
  p ∉ eff ->
  p <> q ->
  exists σ' : Role.store,
    Role.add this q σ = Some σ' /\ Role.has this p σ' = Role.has this p σ.
Proof.
  intros Heff Hwild Hnot Hne.
  destruct (add_effective this q σ eff Heff) as (σ' & Hrun & Heff').
  exists σ'. split; [done|].
  rewrite (has_unfold this σ' _ p Heff'), (has_unfold this σ _ p Heff). f_equal.
  destruct (JS.includes eff q); [done|]. unfold has_in.
  assert (JS.includes (eff ++ [q]) p = false) as ->.
  { apply includes_false. rewrite elem_of_app, list_elem_of_singleton. tauto. }
  apply includes_false in Hnot. rewrite Hnot. by apply has_loop_stop.
Qed.

(** Witness of X5: channel:quote:* added after user:*. *)
Lemma add_after_wildcard_witness :
  Exists (fun e => wildcard_entry e = true) ["user:voice"; "user:*"; "channel:*"] /\
  exists σ' : Role.store,
    Role.add 0 "channel:quote:*" Scenario.three_entries = Some σ' /\
    Role.has 0 "channel:quote:delete" σ'
    = Role.has 0 "channel:quote:delete" Scenario.three_entries.
Proof.
  assert (Exists (fun e => wildcard_entry e = true)
            ["user:voice"; "user:*"; "channel:*"]) as Hwild.
  { apply Exists_cons_tl. apply Exists_cons_hd. reflexivity. }
  split; [exact Hwild|].
  apply (add_after_wildcard 0 Scenario.three_entries _ "channel:quote:*"
           "channel:quote:delete" eq_refl Hwild).
  - by_evaluation.
  - discriminate.
Defined.

(** ** The loop over a union *)

Lemma has_loop_entry_inside (acc rest : list string) (v p : string) :
  v ∈ acc ->
  has_loop (acc ++ v :: rest) p = has_loop (acc ++ rest) p.
Proof.
  intros Hv. destruct (wildcard_or_not acc) as [Hwild|Hnone].
  - by rewrite !has_loop_stop.
  - rewrite !has_loop_skip by done. cbn [has_loop].
    pose proof (proj1 (Forall_forall _ _) Hnone v Hv) as Hnot.
    unfold wildcard_entry in Hnot. by rewrite Hnot.
Qed.

Lemma has_loop_fold_uniq (values : list string) : forall (acc rest : list string) (p : string),
  has_loop (fold_left Lodash.uniq_step values acc ++ rest) p =
  has_loop (acc ++ values ++ rest) p.
Proof.
  induction values as [|v values IH]; intros acc rest p; [done|].
  cbn [fold_left]. rewrite IH. unfold Lodash.uniq_step.
  destruct (JS.includes acc v) eqn:E.
  - apply includes_true in E. cbn [app]. by rewrite has_loop_entry_inside.
  - by rewrite <- app_assoc.
Qed.

Lemma has_loop_union (a b rest : list string) (p : string) :
  has_loop (Lodash.union a b ++ rest) p = has_loop (a ++ b ++ rest) p.
Proof.
  unfold Lodash.union, Lodash.uniq. rewrite has_loop_fold_uniq. cbn [app].
  by rewrite <- app_assoc.
Qed.

Lemma inherited_cons (σ : Role.store) (q : loc) (parents : list loc) (own : list string) :
  inherited σ (q :: parents) own =
  inherited σ parents (Lodash.union own (default [] (Role.effectivePermissions q σ))).
Proof. reflexivity. Qed.

(** The lists of the parents, one after the other. *)
Lemma has_loop_inherited (σ : Role.store) (parents : list loc) :
  forall (own rest : list string) (p : string),
  has_loop (inherited σ parents own ++ rest) p =
  has_loop (own ++ concat (map (fun q => default [] (Role.effectivePermissions q σ)) parents)
                ++ rest) p.
Proof.
  induction parents as [|q parents IH]; intros own rest p; [done|].
  rewrite inherited_cons, IH, has_loop_union. cbn [map concat].
  by rewrite <- !app_assoc.
Qed.

Lemma inherited_elem (σ : Role.store) (parents : list loc) : forall (own : list string) (x : string),
  x ∈ inherited σ parents own <->
  x ∈ own ++ concat (map (fun q => default [] (Role.effectivePermissions q σ)) parents).
Proof.
  induction parents as [|q parents IH]; intros own x.
  - unfold inherited. simpl. by rewrite app_nil_r.
  - rewrite inherited_cons, IH. cbn [map concat].
    rewrite !elem_of_app, union_elem. tauto.
Qed.

(** X6.  A role's own wildcard entry shadows its parents': when the array
    handed to the constructor holds a wildcard entry, [has] on the new role
    answers every permission that is not literally an entry by the first
    wildcard entry of that array, whatever wildcard entries the parents
    hold. *)
Theorem own_wildcard_shadows_parents (kebabCase : string -> string)
    (u : UserRole.t) (σ : Role.store) (before after : list string) (entry : string) :
  ready u σ ->
  Role.arrays σ !! UserRole.permissions u = Some (before ++ entry :: after) ->
  Forall (fun e => wildcard_entry e = false) before ->
  wildcard_entry entry = true ->
  exists (this : loc) (σ' : Role.store) (eff : list string),
    Role.constructor kebabCase u σ = Some (this, σ') /\
    Role.effectivePermissions this σ' = Some eff /\
    forall p, p ∉ eff -> Role.has this p σ' = Some (wildcard_test entry p).
Proof.
  intros [_ Hparents] Hown Hbefore Hentry.
  destruct (constructor_runs kebabCase u σ _ Hown Hparents)
    as (σ' & me & Hrun & Hroles & _ & _ & Heff & _ & _).
  assert (Hme : Role.roles σ' !! length (Role.roles σ) = Some me).
  { rewrite Hroles. by rewrite list_lookup_middle. }
  set (eff := inherited σ (parents_of u) (before ++ entry :: after)) in *.
  assert (Role.effectivePermissions (length (Role.roles σ)) σ' = Some eff) as Heff'.
  { by rewrite (effectivePermissions_unfold _ _ _ Hme). }
  exists (length (Role.roles σ)), σ', eff. split; [done|]. split; [done|].
  intros p Hnot. rewrite (has_unfold _ σ' eff p Heff'). unfold has_in.
  apply includes_false in Hnot. rewrite Hnot. f_equal.
  rewrite <- (app_nil_r eff). unfold eff. rewrite has_loop_inherited.
  rewrite <- !app_assoc. cbn [app]. by rewrite has_loop_first.
Qed.

(** X7.  Deduplication is invisible to [has]: on a newly built role [has]
    answers every permission as it would on the plain concatenation of the
    role's own array and its parents' effective permissions, in [inherits]
    order. *)
Theorem has_after_construction (kebabCase : string -> string)
    (u : UserRole.t) (σ : Role.store) (own : list string) :
  ready u σ ->
  Role.arrays σ !! UserRole.permissions u = Some own ->
  exists (this : loc) (σ' : Role.store),
    Role.constructor kebabCase u σ = Some (this, σ') /\
    forall p,
      Role.has this p σ' =
      Some (has_in (own ++ concat (map (fun q => default [] (Role.effectivePermissions q σ))
                                       (parents_of u))) p).
Proof.
  intros [_ Hparents] Hown.
  destruct (constructor_runs kebabCase u σ _ Hown Hparents)
    as (σ' & me & Hrun & Hroles & _ & _ & Heff & _ & _).
  assert (Hme : Role.roles σ' !! length (Role.roles σ) = Some me).
  { rewrite Hroles. by rewrite list_lookup_middle. }
  exists (length (Role.roles σ)), σ'. split; [done|]. intros p.
  rewrite (has_unfold _ σ' (inherited σ (parents_of u) own) p).
  2:{ by rewrite (effectivePermissions_unfold _ _ _ Hme). }
  f_equal. unfold has_in, JS.includes.
  rewrite (bool_decide_ext _ _ (inherited_elem σ (parents_of u) own p)).
  destruct (bool_decide _); [done|].
  rewrite <- (app_nil_r (inherited σ (parents_of u) own)), has_loop_inherited.
  by rewrite !app_nil_r.
Qed.

Lemma helper_ready : ready Scenario.helper Scenario.helper_store.
Proof.
  split.
  - eexists. reflexivity.
  - repeat constructor. eexists. reflexivity.
Qed.

(** Witness of X6: helper declares user:* and inherits channel:* from mod. *)
Lemma own_wildcard_shadows_parents_witness :
  ready Scenario.helper Scenario.helper_store /\
  exists (this : loc) (σ' : Role.store) (eff : list string),
    Role.constructor Scenario.kebabCase Scenario.helper Scenario.helper_store
      = Some (this, σ') /\
    Role.effectivePermissions this σ' = Some eff /\
    forall p, p ∉ eff -> Role.has this p σ' = Some (wildcard_test "user:*" p).
Proof.
  split; [exact helper_ready|].
  apply (own_wildcard_shadows_parents Scenario.kebabCase Scenario.helper
           Scenario.helper_store [] [] "user:*").
  - exact helper_ready.
  - reflexivity.
  - constructor.
  - reflexivity.
Defined.

(** Witness of X7: the construction of helper. *)
Lemma has_after_construction_witness :
  ready Scenario.helper Scenario.helper_store /\
  exists (this : loc) (σ' : Role.store),
    Role.constructor Scenario.kebabCase Scenario.helper Scenario.helper_store
      = Some (this, σ') /\
    forall p,
      Role.has this p σ' =
      Some (has_in (["user:*"]
                      ++ concat (map (fun q => default []
                                        (Role.effectivePermissions q Scenario.helper_store))
                                     (parents_of Scenario.helper))) p).
Proof.
  split; [exact helper_ready|].
  apply (has_after_construction Scenario.kebabCase Scenario.helper
           Scenario.helper_store ["user:*"]).
  - exact helper_ready.
  - reflexivity.
Defined.

(** ** The record the constructor stores *)

Section Constructor_record.

Variable kebabCase : string -> string.

Lemma constructor_record (u : UserRole.t) (σ : Role.store) (own : list string) :
  Role.arrays σ !! UserRole.permissions u = Some own ->
  Forall (fun p => is_Some (Role.effectivePermissions p σ)) (parents_of u) ->
  exists (σ' : Role.store) (a : loc),
    Role.constructor kebabCase u σ = Some (length (Role.roles σ), σ') /\
    Role.roles σ' =
      Role.roles σ ++
      [Role.make (UserRole.id u) (UserRole.name u) (kebabCase (UserRole.name u))
                 (UserRole.type u) (UserRole.permissions u) a (parents_of u)
                 (default 0%float (UserRole.boost u))] /\
    Role.arrays σ `prefix_of` Role.arrays σ' /\
    is_Some (Role.arrays σ' !! a) /\
    (parents_of u = [] -> a = UserRole.permissions u) /\
    (parents_of u <> [] -> length (Role.arrays σ) <= a).
Proof.
  intros Hown Hparents. unfold Role.constructor. fold (parents_of u).
  set (this := length (Role.roles σ)).
  set (me0 := Role.make _ _ _ _ _ _ _ _).
  set (σ0 := Role.Store (Role.arrays σ) (Role.roles σ ++ [me0])).
  destruct (forEach_inherit (parents_of u) σ0 this me0 own)
    as (σ' & a & Hrun & Hroles & Hpre & Ha & Hnone & Hsome).
  - simpl. subst this. by rewrite list_lookup_middle.
  - done.
  - eapply Forall_impl; [exact Hparents|]. simpl. intros p Hp.
    pose proof (effectivePermissions_lt p σ Hp) as Hlt. fold this in Hlt.
    split; [lia|]. destruct Hp as [c Hc]. exists c.
    unfold Role.effectivePermissions in *. simpl. by rewrite lookup_app_l.
  - exists σ', a. rewrite Hrun. simpl. split; [done|].
    split; [|split; [done|split; [by eexists|done]]].
    rewrite Hroles. simpl. subst this.
    replace (length (Role.roles σ)) with (length (Role.roles σ) + 0) by lia.
    by rewrite insert_app_r.
Qed.

End Constructor_record.

(** X8.  The accessors after construction: the new role reports the id,
    name and type it was given, the slug [kebabCase] makes of the name, the
    parents it was given (none when [inherits] is left out) and the boost it
    was given (0 when left out).  [getPerms] hands out the caller's own
    array when the role has no parents, and an array that did not exist
    before when it has. *)
Theorem accessors_after_construction (kebabCase : string -> string)
    (u : UserRole.t) (σ : Role.store) :
  ready u σ ->
  exists (this : loc) (σ' : Role.store),
    Role.constructor kebabCase u σ = Some (this, σ') /\
    Role.getId this σ' = Some (UserRole.id u) /\
    Role.getName this σ' = Some (UserRole.name u) /\
    Role.getSlug this σ' = Some (kebabCase (UserRole.name u)) /\
    Role.getType this σ' = Some (UserRole.type u) /\
    Role.getInherits this σ' = Some (default [] (UserRole.inherits u)) /\
    Role.getBoost this σ' = Some (default 0%float (UserRole.boost u)) /\
    (UserRole.inherits u = None \/ UserRole.inherits u = Some [] ->
     Role.getPerms this σ' = Some (UserRole.permissions u)) /\
    (parents_of u <> [] ->
     exists a, Role.getPerms this σ' = Some a /\ length (Role.arrays σ) <= a).
Proof.
  intros [[own Hown] Hparents].
  destruct (constructor_record kebabCase u σ own Hown Hparents)
    as (σ' & a & Hrun & Hroles & _ & _ & Hnone & Hsome).
  exists (length (Role.roles σ)), σ'. split; [done|].
  unfold Role.getId, Role.getName, Role.getSlug, Role.getType, Role.getInherits,
    Role.getBoost, Role.getPerms.
  rewrite Hroles, list_lookup_middle by done. simpl.
  repeat (split; [done|]). split.
  - intros Hleft. rewrite Hnone; [done|]. unfold parents_of.
    by destruct Hleft as [-> | ->].
  - intros Hmore. exists a. split; [done|]. by apply Hsome.
Qed.

(** Witness of X8: the construction of raider. *)
Lemma accessors_after_construction_witness :
  ready Scenario.raider Scenario.raider_store /\
  exists (this : loc) (σ' : Role.store),
    Role.constructor Scenario.kebabCase Scenario.raider Scenario.raider_store
      = Some (this, σ') /\
    Role.getId this σ' = Some "2" /\
    Role.getName this σ' = Some "raider" /\
    Role.getSlug this σ' = Some (Scenario.kebabCase "raider") /\
    Role.getType this σ' = Some custom /\
    Role.getInherits this σ' = Some [0] /\
    Role.getBoost this σ' = Some 0%float /\
    (UserRole.inherits Scenario.raider = None \/ UserRole.inherits Scenario.raider = Some [] ->
     Role.getPerms this σ' = Some 1) /\
    (parents_of Scenario.raider <> [] ->
     exists a, Role.getPerms this σ' = Some a /\
               length (Role.arrays Scenario.raider_store) <= a).
Proof.
  split; [exact raider_ready|].
  exact (accessors_after_construction Scenario.kebabCase Scenario.raider
           Scenario.raider_store raider_ready).
Defined.

(** ** Roles that are already there *)

Lemma rawPermissionsOf_Some (this : loc) (σ : Role.store) (raw : list string) :
  Role.rawPermissionsOf this σ = Some raw ->
  exists me, Role.roles σ !! this = Some me /\
             Role.arrays σ !! Role.rawPermissions me = Some raw.
Proof.
  unfold Role.rawPermissionsOf. destruct (Role.roles σ !! this) as [me|]; [|done].
  simpl. eauto.
Qed.

(** X9.  Construction touches no role that exists: building a role leaves
    the effective and the raw permissions of every other role as they
    were, and so the answers of their [has] and [hasInRaw]. *)
Theorem construction_leaves_existing_roles (kebabCase : string -> string)
    (u : UserRole.t) (σ : Role.store) :
  ready u σ ->
  exists (this : loc) (σ' : Role.store),
    Role.constructor kebabCase u σ = Some (this, σ') /\
    forall (q : loc) (eff raw : list string),
      Role.effectivePermissions q σ = Some eff ->
      Role.rawPermissionsOf q σ = Some raw ->
      q <> this /\
      Role.effectivePermissions q σ' = Some eff /\
      Role.rawPermissionsOf q σ' = Some raw /\
      (forall p, Role.has q p σ' = Role.has q p σ) /\
      (forall p, Role.hasInRaw q p σ' = Role.hasInRaw q p σ).
Proof.
  intros [[own Hown] Hparents].
  destruct (constructor_runs kebabCase u σ own Hown Hparents)
    as (σ' & me & Hrun & Hroles & _ & Hpre & _).
  exists (length (Role.roles σ)), σ'. split; [done|].
  intros q eff raw Heff Hraw.
  pose proof Heff as (meq & Hq & Hqeff)%effectivePermissions_Some.
  pose proof Hraw as (meq' & Hq' & Hqraw)%rawPermissionsOf_Some.
  assert (meq' = meq) as -> by congruence.
  pose proof (lookup_lt_Some _ _ _ Hq) as Hlt.
  assert (Role.roles σ' !! q = Some meq) as Hq1.
  { rewrite Hroles. by rewrite lookup_app_l. }
  assert (Role.effectivePermissions q σ' = Some eff) as Heff1.
  { rewrite (effectivePermissions_unfold _ _ _ Hq1). by eapply prefix_lookup_Some. }
  assert (Role.rawPermissionsOf q σ' = Some raw) as Hraw1.
  { rewrite (rawPermissionsOf_unfold _ _ _ Hq1). by eapply prefix_lookup_Some. }
  split; [lia|]. split; [done|]. split; [done|]. split; intros p.
  - by rewrite (has_unfold _ _ _ p Heff1), (has_unfold _ _ _ p Heff).
  - by rewrite (hasInRaw_unfold _ _ _ p Hraw1), (hasInRaw_unfold _ _ _ p Hraw).
Qed.

(** Witness of X9: building raider leaves user as it was. *)
Lemma construction_leaves_existing_roles_witness :
  ready Scenario.raider Scenario.raider_store /\
  Role.effectivePermissions 0 Scenario.raider_store = Some ["user:voice"] /\
  Role.effectivePermissions 0 Scenario.raider_built = Some ["user:voice"] /\
  forall p, Role.has 0 p Scenario.raider_built = Role.has 0 p Scenario.raider_store.
Proof.
  split; [exact raider_ready|]. split; [reflexivity|].
  destruct (construction_leaves_existing_roles Scenario.kebabCase Scenario.raider
              Scenario.raider_store raider_ready) as (this & σ' & Hrun & Hsame).
  assert (Role.constructor Scenario.kebabCase Scenario.raider Scenario.raider_store
          = Some (1, Scenario.raider_built)) as Hbuilt by reflexivity.
  rewrite Hbuilt in Hrun. injection Hrun as <- <-.
  destruct (Hsame 0 ["user:voice"] ["user:voice"] eq_refl eq_refl)
    as (_ & Heff & _ & Hhas & _).
  split; [exact Heff|exact Hhas].
Defined.

(** X10.  Mutating a role built with parents touches no role that was
    there before: after one [set], [add] or [remove] on the new role, and
    after any number of them, [set] not being handed the other role's array,
    every earlier role keeps its effective permissions and the answers of
    its [has].  The same holds for a role built without parents from an
    array that the other role does not hold. *)
Theorem child_mutations_leave_others (kebabCase : string -> string)
    (u : UserRole.t) (σ σ1 : Role.store) (C Q : loc) (meQ : Role.t)
    (effQ : list string) :
  ready u σ ->
  Role.constructor kebabCase u σ = Some (C, σ1) ->
  Role.roles σ !! Q = Some meQ ->
  Role.arrays σ !! Role.permissions meQ = Some effQ ->
  parents_of u <> [] \/ UserRole.permissions u <> Role.permissions meQ ->
  (forall (m : Role.mutation) (σ2 : Role.store),
      Role.mutate C m σ1 = Some σ2 ->
      Role.effectivePermissions Q σ2 = Some effQ /\
      forall p, Role.has Q p σ2 = Role.has Q p σ) /\
  (forall (ms : list Role.mutation) (σ2 : Role.store),
      Forall (fun m => m <> Role.by_set (Role.permissions meQ)) ms ->
      Role.forEach (Role.mutate C) ms σ1 = Some σ2 ->
      Role.effectivePermissions Q σ2 = Some effQ /\
      forall p, Role.has Q p σ2 = Role.has Q p σ).
Proof.
  intros [[own Hown] Hparents] Hrun HQ HeffQ Hapart.
  destruct (constructor_runs kebabCase u σ own Hown Hparents)
    as (σ' & me & Hrun' & Hroles & _ & Hpre & _ & Hnone & Hfresh).
  rewrite Hrun' in Hrun. injection Hrun as <- <-.
  pose proof (lookup_lt_Some _ _ _ HQ) as HltQ.
  pose proof (lookup_lt_Some _ _ _ HeffQ) as HltA.
  assert (Role.roles σ' !! Q = Some meQ) as HQ1.
  { rewrite Hroles. by rewrite lookup_app_l. }
  assert (Role.arrays σ' !! Role.permissions meQ = Some effQ) as HeffQ1.
  { by eapply prefix_lookup_Some. }
  assert (length (Role.roles σ) <> Q) as Hne by lia.
  assert (forall meC, Role.roles σ' !! length (Role.roles σ) = Some meC ->
                      Role.permissions meC <> Role.permissions meQ) as Hdiff.
  { intros meC. rewrite Hroles, list_lookup_middle by done. intros [= <-].
    destruct (decide (parents_of u = [])) as [Hnil|Hmore].
    - destruct Hapart as [Hmore|Hother]; [done|]. by rewrite (Hnone Hnil).
    - specialize (Hfresh Hmore). lia. }
  assert (Role.effectivePermissions Q σ = Some effQ) as H0.
  { by rewrite (effectivePermissions_unfold _ _ _ HQ). }
  assert (forall σ2, Role.roles σ2 !! Q = Some meQ ->
            Role.arrays σ2 !! Role.permissions meQ = Some effQ ->
            Role.effectivePermissions Q σ2 = Some effQ /\
            forall p, Role.has Q p σ2 = Role.has Q p σ) as Hsame.
  { intros σ2 HQ2 HeffQ2.
    assert (Role.effectivePermissions Q σ2 = Some effQ) as H2.
    { by rewrite (effectivePermissions_unfold _ _ _ HQ2). }
    split; [done|]. intros p.
    by rewrite (has_unfold _ _ _ p H0), (has_unfold _ _ _ p H2). }
  split.
  - intros m σ2 Hstep.
    destruct (mutate_frame (length (Role.roles σ)) Q m σ' σ2 meQ effQ)
      as (HQ2 & HeffQ2 & _); try done.
    by apply Hsame.
  - intros ms σ2 Hms Hmut.
    destruct (mutations_frame (length (Role.roles σ)) Q meQ effQ ms σ' σ2)
      as [HQ2 HeffQ2]; try done.
    by apply Hsame.
Qed.

(** Witness of X10: raider mutated twice, user read. *)
Lemma child_mutations_leave_others_witness :
  (parents_of Scenario.raider <> [] \/
   UserRole.permissions Scenario.raider <> 0) /\
  Role.forEach (Role.mutate 1)
    [Role.by_remove "user:voice"; Role.by_add "channel:quote:delete"]
    Scenario.raider_built = Some Scenario.raider_mutated /\
  Role.effectivePermissions 0 Scenario.raider_mutated = Some ["user:voice"] /\
  forall p, Role.has 0 p Scenario.raider_mutated = Role.has 0 p Scenario.raider_store.
Proof.
  assert (parents_of Scenario.raider <> [] \/
          UserRole.permissions Scenario.raider <> 0) as Hapart by (left; discriminate).
  split; [exact Hapart|]. split; [reflexivity|].
  destruct (child_mutations_leave_others Scenario.kebabCase Scenario.raider
              Scenario.raider_store Scenario.raider_built 1 0
              (Role.make "1" "user" "user" internal 0 0 [] 0%float) ["user:voice"]
              raider_ready eq_refl eq_refl eq_refl Hapart) as [_ Hmany].
  apply (Hmany [Role.by_remove "user:voice"; Role.by_add "channel:quote:delete"]).
  - repeat constructor; discriminate.
  - reflexivity.
Defined.

(** ** [remove], [set] and [setBoost] *)

Lemma filter_absent (arr : list string) (p : string) :
  p ∉ arr -> JS.filter (fun perm => negb (String.eqb perm p)) arr = arr.
Proof.
  unfold JS.filter. induction arr as [|x arr IH]; intros Hnot; [done|].
  apply not_elem_of_cons in Hnot as [Hne Hnot]. simpl.
  destruct (String.eqb_spec x p) as [->|_]; [done|]. simpl. by rewrite IH.
Qed.

(** X11.  [remove] never reaches the raw permissions, and it ends the
    sharing: it leaves [rawPermissions] and every answer of [hasInRaw] as
    they were, on any role, and after it [add] no longer changes the raw
    permissions either. *)
Theorem remove_keeps_raw (this : loc) (σ : Role.store) (eff raw : list string)
    (p : string) :
  Role.effectivePermissions this σ = Some eff ->
  Role.rawPermissionsOf this σ = Some raw ->
  exists σ' : Role.store,
    Role.remove this p σ = Some σ' /\
    Role.rawPermissionsOf this σ' = Some raw /\
    (forall x, Role.hasInRaw this x σ' = Role.hasInRaw this x σ) /\
    (forall q, exists σ'' : Role.store,
        Role.add this q σ' = Some σ'' /\
        Role.rawPermissionsOf this σ'' = Some raw).
Proof.
  intros Heff Hraw.
  pose proof Heff as (me & Hme & Harr)%effectivePermissions_Some.
  pose proof Hraw as (me' & Hme' & Hrawarr)%rawPermissionsOf_Some.
  assert (me' = me) as -> by congruence.
  pose proof (lookup_lt_Some _ _ _ Hme) as Hlt.
  pose proof (lookup_lt_Some _ _ _ Hrawarr) as Hltraw.
  set (kept := JS.filter (fun perm => negb (String.eqb perm p)) eff).
  set (σ' := Role.Store (Role.arrays σ ++ [kept])
               (<[this := Role.assign_permissions me (length (Role.arrays σ))]>
                  (Role.roles σ))).
  assert (Role.roles σ' !! this
          = Some (Role.assign_permissions me (length (Role.arrays σ)))) as Hme1.
  { simpl. by apply list_lookup_insert_eq. }
  assert (Role.rawPermissionsOf this σ' = Some raw) as Hraw1.
  { rewrite (rawPermissionsOf_unfold _ _ _ Hme1). simpl. by rewrite lookup_app_l. }
  exists σ'. split; [by apply remove_runs|]. split; [done|]. split.
  - intros x. by rewrite (hasInRaw_unfold _ _ _ x Hraw1), (hasInRaw_unfold _ _ _ x Hraw).
  - intros q. eexists. split.
    + apply (add_runs this q σ' _ kept Hme1). simpl. by rewrite list_lookup_middle.
    + destruct (JS.includes kept q); [done|].
      unfold Role.rawPermissionsOf. cbn [Role.roles Role.arrays]. rewrite Hme1. simpl.
      rewrite list_lookup_insert_ne by lia. by rewrite lookup_app_l.
Qed.

(** Witness of X11: user, built without parents, after a [remove]. *)
Lemma remove_keeps_raw_witness :
  Role.effectivePermissions 0 Scenario.user_store = Some ["user:voice"] /\
  exists σ' : Role.store,
    Role.remove 0 "user:voice" Scenario.user_store = Some σ' /\
    Role.rawPermissionsOf 0 σ' = Some ["user:voice"] /\
    (forall x, Role.hasInRaw 0 x σ' = Role.hasInRaw 0 x Scenario.user_store) /\
    (forall q, exists σ'' : Role.store,
        Role.add 0 q σ' = Some σ'' /\
        Role.rawPermissionsOf 0 σ'' = Some ["user:voice"]).
Proof.
  split; [reflexivity|].
  apply (remove_keeps_raw 0 Scenario.user_store ["user:voice"] ["user:voice"]);
    reflexivity.
Defined.

(** X12.  [set] installs the caller's array itself: it returns the role,
    leaves the raw permissions alone, makes [has] answer from the given
    array only, and a later [add] of a new permission writes into that very
    array. *)
Theorem set_installs_callers_array (this a : loc) (σ : Role.store)
    (given raw : list string) :
  Role.rawPermissionsOf this σ = Some raw ->
  Role.arrays σ !! a = Some given ->
  exists σ' : Role.store,
    Role.set this a σ = Some (this, σ') /\
    Role.getPerms this σ' = Some a /\
    Role.rawPermissionsOf this σ' = Some raw /\
    (forall p, Role.has this p σ' = Some (has_in given p)) /\
    (forall q, q ∉ given ->
       exists σ'' : Role.store,
         Role.add this q σ' = Some σ'' /\
         Role.arrays σ'' !! a = Some (given ++ [q])).
Proof.
  intros Hraw Hgiven.
  pose proof Hraw as (me & Hme & Hrawarr)%rawPermissionsOf_Some.
  pose proof (lookup_lt_Some _ _ _ Hme) as Hlt.
  set (σ' := Role.Store (Role.arrays σ)
               (<[this := Role.assign_permissions me a]> (Role.roles σ))).
  assert (Role.roles σ' !! this = Some (Role.assign_permissions me a)) as Hme1.
  { simpl. by apply list_lookup_insert_eq. }
  exists σ'. split; [by apply set_runs|]. split.
  { unfold Role.getPerms. by rewrite Hme1. }
  split.
  { by rewrite (rawPermissionsOf_unfold _ _ _ Hme1). }
  split.
  - intros p. apply has_unfold. by rewrite (effectivePermissions_unfold _ _ _ Hme1).
  - intros q Hnew. eexists. split.
    + by apply (add_runs this q σ' _ given Hme1).
    + apply includes_false in Hnew. rewrite Hnew. simpl.
      apply list_lookup_insert_eq. by eapply lookup_lt_Some.
Qed.

(** Witness of X12: raider set to the array of user. *)
Lemma set_installs_callers_array_witness :
  Role.rawPermissionsOf 1 Scenario.raider_built = Some ["command:run:love_raider"] /\
  exists σ' : Role.store,
    Role.set 1 0 Scenario.raider_built = Some (1, σ') /\
    Role.getPerms 1 σ' = Some 0 /\
    Role.rawPermissionsOf 1 σ' = Some ["command:run:love_raider"] /\
    (forall p, Role.has 1 p σ' = Some (has_in ["user:voice"] p)) /\
    (forall q, q ∉ ["user:voice"] ->
       exists σ'' : Role.store,
         Role.add 1 q σ' = Some σ'' /\
         Role.arrays σ'' !! 0 = Some (["user:voice"] ++ [q])).
Proof.
  split; [reflexivity|].
  apply (set_installs_callers_array 1 0 Scenario.raider_built); reflexivity.
Defined.

(** X13.  [setBoost] stores the boost and nothing else: it returns the
    value, [getBoost] then returns it, and the permissions of every role and
    the answers of [has] and [hasInRaw] stay as they were. *)
Theorem setBoost_then_getBoost (this : loc) (boost : float) (σ : Role.store) :
  is_Some (Role.roles σ !! this) ->
  exists σ' : Role.store,
    Role.setBoost this boost σ = Some (boost, σ') /\
    Role.getBoost this σ' = Some boost /\
    forall q,
      Role.effectivePermissions q σ' = Role.effectivePermissions q σ /\
      Role.rawPermissionsOf q σ' = Role.rawPermissionsOf q σ /\
      (forall p, Role.has q p σ' = Role.has q p σ) /\
      (forall p, Role.hasInRaw q p σ' = Role.hasInRaw q p σ).
Proof.
  intros [me Hme]. pose proof (lookup_lt_Some _ _ _ Hme) as Hlt.
  eexists. split; [unfold Role.setBoost; by rewrite Hme|].
  unfold Role.getBoost, Role.write_role. cbn [Role.roles].
  split; [by rewrite list_lookup_insert_eq|]. intros q.
  unfold Role.effectivePermissions, Role.rawPermissionsOf, Role.has, Role.hasInRaw.
  cbn [Role.roles Role.arrays].
  destruct (decide (q = this)) as [->|Hne].
  - rewrite list_lookup_insert_eq by done. by rewrite Hme.
  - by rewrite list_lookup_insert_ne.
Qed.

(** Witness of X13: the boost of user set to 2. *)
Lemma setBoost_then_getBoost_witness :
  is_Some (Role.roles Scenario.user_store !! 0) /\
  exists σ' : Role.store,
    Role.setBoost 0 2%float Scenario.user_store = Some (2%float, σ') /\
    Role.getBoost 0 σ' = Some 2%float /\
    forall q,
      Role.effectivePermissions q σ' = Role.effectivePermissions q Scenario.user_store /\
      Role.rawPermissionsOf q σ' = Role.rawPermissionsOf q Scenario.user_store /\
      (forall p, Role.has q p σ' = Role.has q p Scenario.user_store) /\
      (forall p, Role.hasInRaw q p σ' = Role.hasInRaw q p Scenario.user_store).
Proof.
  assert (is_Some (Role.roles Scenario.user_store !! 0)) as Hthere
    by (eexists; reflexivity).
  split; [exact Hthere|].
  exact (setBoost_then_getBoost 0 2%float Scenario.user_store Hthere).
Defined.

(** X14.  [add] then [remove] of a permission that was not an entry brings
    the effective permissions back to what they were. *)
Theorem add_then_remove_restores (this : loc) (σ : Role.store) (eff : list string)
    (p : string) :
  Role.effectivePermissions this σ = Some eff ->
  p ∉ eff ->
  exists σ1 σ2 : Role.store,
    Role.add this p σ = Some σ1 /\
    Role.remove this p σ1 = Some σ2 /\
    Role.effectivePermissions this σ2 = Some eff.
Proof.
  intros Heff Hnot.
  destruct (add_effective this p σ eff Heff) as (σ1 & Hadd & Heff1).
  destruct (remove_effective this p σ1 _ Heff1) as (σ2 & Hremove & Heff2).
  exists σ1, σ2. split; [done|]. split; [done|]. rewrite Heff2. f_equal.
  apply includes_false in Hnot. rewrite Hnot. unfold JS.filter.
  rewrite List.filter_app. simpl. rewrite String.eqb_refl. simpl.
  rewrite app_nil_r. apply filter_absent. by apply includes_false.
Qed.

(** Witness of X14: channel:quote:delete added to raider and removed. *)
Lemma add_then_remove_restores_witness :
  ("channel:quote:delete" ∉ ["command:run:love_raider"; "user:voice"]) /\
  exists σ1 σ2 : Role.store,
    Role.add 1 "channel:quote:delete" Scenario.raider_built = Some σ1 /\
    Role.remove 1 "channel:quote:delete" σ1 = Some σ2 /\
    Role.effectivePermissions 1 σ2 = Some ["command:run:love_raider"; "user:voice"].
Proof.
  assert ("channel:quote:delete" ∉ ["command:run:love_raider"; "user:voice"]) as Hnot
    by by_evaluation.
  split; [exact Hnot|].
  exact (add_then_remove_restores 1 Scenario.raider_built _ "channel:quote:delete"
           eq_refl Hnot).
Defined.

(** ** Inheritance through several roles *)

(** X15.  Inheritance carries through: a role built from a parent that was
    itself built from a grandparent is granted, by [has], every permission
    the grandparent had when the parent was built. *)
Theorem inheritance_carries_through (kebabCase : string -> string)
    (uP uC : UserRole.t) (σ σ1 : Role.store) (G P : loc) (g : list string)
    (x : string) :
  ready uP σ ->
  G ∈ parents_of uP ->
  Role.effectivePermissions G σ = Some g ->
  x ∈ g ->
  Role.constructor kebabCase uP σ = Some (P, σ1) ->
  ready uC σ1 ->
  P ∈ parents_of uC ->
  exists (C : loc) (σ2 : Role.store),
    Role.constructor kebabCase uC σ1 = Some (C, σ2) /\
    Role.has C x σ2 = Some (Return true).
Proof.
  intros [[ownP HownP] HparentsP] HG Hg Hx HrunP [[ownC HownC] HparentsC] HP.
  destruct (constructor_runs kebabCase uP σ ownP HownP HparentsP)
    as (σ1' & meP & HrunP' & HrolesP & _ & _ & HeffP & _ & _).
  rewrite HrunP' in HrunP. injection HrunP as <- <-.
  assert (Role.effectivePermissions (length (Role.roles σ)) σ1'
          = Some (inherited σ (parents_of uP) ownP)) as HeffP1.
  { rewrite (effectivePermissions_unfold _ _ meP); [done|].
    rewrite HrolesP. by rewrite list_lookup_middle. }
  destruct (constructor_runs kebabCase uC σ1' ownC HownC HparentsC)
    as (σ2 & meC & HrunC & HrolesC & _ & _ & HeffC & _ & _).
  exists (length (Role.roles σ1')), σ2. split; [done|].
  rewrite (has_unfold _ σ2 (inherited σ1' (parents_of uC) ownC)).
  - f_equal. apply has_in_entry.
    eapply inherited_covers; [exact HP|exact HeffP1|].
    by eapply inherited_covers.
  - rewrite (effectivePermissions_unfold _ _ meC); [done|].
    rewrite HrolesC. by rewrite list_lookup_middle.
Qed.

Lemma captain_ready : ready Scenario.captain Scenario.crew_with_raider.
Proof.
  split.
  - eexists. reflexivity.
  - repeat constructor. eexists. reflexivity.
Qed.

Lemma crew_raider_ready : ready Scenario.raider Scenario.crew_store.
Proof.
  split.
  - eexists. reflexivity.
  - repeat constructor. eexists. reflexivity.
Qed.

(** Witness of X15: captain inherits raider, which inherits user. *)
Lemma inheritance_carries_through_witness :
  Role.constructor Scenario.kebabCase Scenario.raider Scenario.crew_store
    = Some (1, Scenario.crew_with_raider) /\
  exists (C : loc) (σ2 : Role.store),
    Role.constructor Scenario.kebabCase Scenario.captain Scenario.crew_with_raider
      = Some (C, σ2) /\
    Role.has C "user:voice" σ2 = Some (Return true).
Proof.
  split; [reflexivity|].
  apply (inheritance_carries_through Scenario.kebabCase Scenario.raider
           Scenario.captain Scenario.crew_store Scenario.crew_with_raider 0 1
           ["user:voice"] "user:voice").
  - exact crew_raider_ready.
  - by_evaluation.
  - reflexivity.
  - by_evaluation.
  - reflexivity.
  - exact captain_ready.
  - by_evaluation.
Defined.

(** ** The order of the effective permissions *)

Lemma fold_uniq_prefix (values : list string) : forall acc : list string,
  acc `prefix_of` fold_left Lodash.uniq_step values acc.
Proof.
  induction values as [|v values IH]; intros acc; [done|].
  cbn [fold_left]. etrans; [|apply IH]. unfold Lodash.uniq_step.
  destruct (JS.includes acc v); [done|]. by apply prefix_app_r.
Qed.

Lemma fold_uniq_fresh (values : list string) : forall acc : list string,
  NoDup (acc ++ values) -> fold_left Lodash.uniq_step values acc = acc ++ values.
Proof.
  induction values as [|v values IH]; intros acc Hnd.
  - by rewrite app_nil_r.
  - cbn [fold_left]. unfold Lodash.uniq_step.
    assert (v ∉ acc) as Hnew.
    { apply NoDup_app in Hnd as (_ & Hdisjoint & _). intros Hin.
      apply (Hdisjoint v Hin). left. }
    apply includes_false in Hnew. rewrite Hnew.
    rewrite IH; rewrite <- app_assoc; done.
Qed.

Lemma fold_uniq_known (values : list string) : forall acc : list string,
  (forall x, x ∈ values -> x ∈ acc) -> fold_left Lodash.uniq_step values acc = acc.
Proof.
  induction values as [|v values IH]; intros acc Hknown; [done|].
  cbn [fold_left]. unfold Lodash.uniq_step.
  assert (JS.includes acc v = true) as ->.
  { apply includes_true. apply Hknown. left. }
  apply IH. intros x Hx. apply Hknown. by right.
Qed.

Lemma union_of_NoDup (a b : list string) :
  NoDup a -> Lodash.union a b = fold_left Lodash.uniq_step b a.
Proof.
  intros Hnd. unfold Lodash.union, Lodash.uniq. rewrite fold_left_app.
  by rewrite (fold_uniq_fresh a []).
Qed.

Lemma inherited_prefix (σ : Role.store) (parents : list loc) : forall own : list string,
  NoDup own -> own `prefix_of` inherited σ parents own.
Proof.
  induction parents as [|q parents IH]; intros own Hnd; [done|].
  rewrite inherited_cons. etrans; [|apply IH, union_NoDup].
  rewrite union_of_NoDup by done. apply fold_uniq_prefix.
Qed.

Lemma inherited_known (σ : Role.store) (parents : list loc) (own : list string) :
  NoDup own ->
  Forall (fun q => forall x, x ∈ default [] (Role.effectivePermissions q σ) -> x ∈ own)
         parents ->
  inherited σ parents own = own.
Proof.
  intros Hnd Hknown. induction Hknown as [|q parents Hq _ IH]; [done|].
  rewrite inherited_cons, union_of_NoDup by done.
  by rewrite fold_uniq_known.
Qed.

(** X16.  A role's own permissions come first: built from an array without
    duplicates, a role has that array, in its order, at the start of its
    effective permissions, and what it inherits after it. *)
Theorem own_permissions_come_first (kebabCase : string -> string)
    (u : UserRole.t) (σ : Role.store) (own : list string) :
  ready u σ ->
  Role.arrays σ !! UserRole.permissions u = Some own ->
  NoDup own ->
  exists (this : loc) (σ' : Role.store) (rest : list string),
    Role.constructor kebabCase u σ = Some (this, σ') /\
    Role.effectivePermissions this σ' = Some (own ++ rest) /\
    forall x, x ∈ rest ->
      exists P theirs, P ∈ parents_of u /\
                       Role.effectivePermissions P σ = Some theirs /\ x ∈ theirs.
Proof.
  intros [_ Hparents] Hown Hnd.
  destruct (constructor_runs kebabCase u σ own Hown Hparents)
    as (σ' & me & Hrun & Hroles & _ & _ & Heff & _ & _).
  destruct (inherited_prefix σ (parents_of u) own Hnd) as [rest Hrest].
  exists (length (Role.roles σ)), σ', rest. split; [done|]. split.
  - rewrite (effectivePermissions_unfold _ _ me).
    + by rewrite Heff, Hrest.
    + rewrite Hroles. by rewrite list_lookup_middle.
  - intros x Hx.
    assert (x ∈ inherited σ (parents_of u) own) as Hin.
    { rewrite Hrest. apply elem_of_app. by right. }
    assert (x ∉ own) as Hnot.
    { assert (NoDup (own ++ rest)) as Hall.
      { rewrite <- Hrest. apply inherited_NoDup. by right. }
      apply NoDup_app in Hall as (_ & Hdisjoint & _). intros Hown'.
      by apply (Hdisjoint x). }
    apply inherited_elem in Hin. apply elem_of_app in Hin as [Hin|Hin]; [done|].
    apply list_elem_of_In, in_concat in Hin as (c & Hc & Hxc).
    apply in_map_iff in Hc as (P & <- & HP).
    apply list_elem_of_In in HP.
    pose proof (proj1 (Forall_forall _ _) Hparents P HP) as [theirs Htheirs].
    exists P, theirs. split; [done|]. split; [done|].
    rewrite Htheirs in Hxc. simpl in Hxc. by apply list_elem_of_In.
Qed.

(** Witness of X16: the construction of raider. *)
Lemma own_permissions_come_first_witness :
  NoDup ["command:run:love_raider"] /\
  exists (this : loc) (σ' : Role.store) (rest : list string),
    Role.constructor Scenario.kebabCase Scenario.raider Scenario.raider_store
      = Some (this, σ') /\
    Role.effectivePermissions this σ' = Some (["command:run:love_raider"] ++ rest) /\
    forall x, x ∈ rest ->
      exists P theirs, P ∈ parents_of Scenario.raider /\
                       Role.effectivePermissions P Scenario.raider_store = Some theirs /\
                       x ∈ theirs.
Proof.
  assert (NoDup ["command:run:love_raider"]) as Hnd by by_evaluation.
  split; [exact Hnd|].
  exact (own_permissions_come_first Scenario.kebabCase Scenario.raider
           Scenario.raider_store _ raider_ready eq_refl Hnd).
Defined.

(** X17.  Nothing new to inherit: a role built from an array without
    duplicates that already holds every permission of its parents has
    exactly that array's contents, in order, as effective permissions,
    while [getPerms] hands out a new array when there are parents. *)
Theorem nothing_new_to_inherit (kebabCase : string -> string)
    (u : UserRole.t) (σ : Role.store) (own : list string) :
  ready u σ ->
  Role.arrays σ !! UserRole.permissions u = Some own ->
  NoDup own ->
  (forall P theirs x, P ∈ parents_of u ->
      Role.effectivePermissions P σ = Some theirs -> x ∈ theirs -> x ∈ own) ->
  exists (this : loc) (σ' : Role.store) (a : loc),
    Role.constructor kebabCase u σ = Some (this, σ') /\
    Role.getPerms this σ' = Some a /\
    Role.effectivePermissions this σ' = Some own /\
    (parents_of u <> [] -> a <> UserRole.permissions u).
Proof.
  intros [_ Hparents] Hown Hnd Hknown.
  destruct (constructor_runs kebabCase u σ own Hown Hparents)
    as (σ' & me & Hrun & Hroles & _ & _ & Heff & _ & Hfresh).
  assert (Role.roles σ' !! length (Role.roles σ) = Some me) as Hme.
  { rewrite Hroles. by rewrite list_lookup_middle. }
  exists (length (Role.roles σ)), σ', (Role.permissions me).
  split; [done|]. split; [unfold Role.getPerms; by rewrite Hme|]. split.
  - rewrite (effectivePermissions_unfold _ _ _ Hme), Heff. f_equal.
    apply inherited_known; [done|]. apply Forall_forall. intros P HP x Hx.
    pose proof (proj1 (Forall_forall _ _) Hparents P HP) as [theirs Htheirs].
    rewrite Htheirs in Hx. by apply (Hknown P theirs).
  - intros Hmore. specialize (Hfresh Hmore).
    apply lookup_lt_Some in Hown. lia.
Qed.

Lemma echo_ready : ready Scenario.echo Scenario.echo_store.
Proof.
  split.
  - eexists. reflexivity.
  - repeat constructor. eexists. reflexivity.
Qed.

(** Witness of X17: echo declares user:voice and inherits user. *)
Lemma nothing_new_to_inherit_witness :
  NoDup ["user:voice"] /\
  exists (this : loc) (σ' : Role.store) (a : loc),
    Role.constructor Scenario.kebabCase Scenario.echo Scenario.echo_store
      = Some (this, σ') /\
    Role.getPerms this σ' = Some a /\
    Role.effectivePermissions this σ' = Some ["user:voice"] /\
    (parents_of Scenario.echo <> [] -> a <> UserRole.permissions Scenario.echo).
Proof.
  assert (NoDup ["user:voice"]) as Hnd by by_evaluation.
  split; [exact Hnd|].
  apply (nothing_new_to_inherit Scenario.kebabCase Scenario.echo Scenario.echo_store
           ["user:voice"] echo_ready eq_refl Hnd).
  intros P theirs x HP Htheirs Hx.
  apply list_elem_of_singleton in HP as ->.
  change (Some ["user:voice"] = Some theirs) in Htheirs.
  by injection Htheirs as <-.
Defined.

(** ** One array in two roles *)

(** X18.  Two roles built without parents from one array share it: [add]
    of a new permission through the first is granted by [has] of the
    second and found by its [hasInRaw]. *)
Theorem shared_array_between_roles (kebabCase : string -> string)
    (u1 u2 : UserRole.t) (σ σ1 σ2 : Role.store) (r1 r2 : loc)
    (own : list string) (p : string) :
  Role.arrays σ !! UserRole.permissions u1 = Some own ->
  UserRole.permissions u2 = UserRole.permissions u1 ->
  parents_of u1 = [] ->
  parents_of u2 = [] ->
  Role.constructor kebabCase u1 σ = Some (r1, σ1) ->
  Role.constructor kebabCase u2 σ1 = Some (r2, σ2) ->
  p ∉ own ->
  exists σ3 : Role.store,
    Role.add r1 p σ2 = Some σ3 /\
    Role.has r2 p σ3 = Some (Return true) /\
    Role.hasInRaw r2 p σ3 = Some true.
Proof.
  intros Hown Hsame Hnil1 Hnil2 Hrun1 Hrun2 Hnew.
  destruct (constructor_runs kebabCase u1 σ own Hown)
    as (σ1' & me1 & Hrun1' & Hroles1 & _ & _ & Heff1 & Hperm1 & _).
  { rewrite Hnil1. constructor. }
  rewrite Hrun1' in Hrun1. injection Hrun1 as <- <-.
  rewrite Hnil1 in Heff1. specialize (Hperm1 Hnil1).
  change (inherited σ [] own) with own in Heff1. rewrite Hperm1 in Heff1.
  rewrite <- Hsame in Heff1.
  destruct (constructor_runs kebabCase u2 σ1' own Heff1)
    as (σ2' & me2 & Hrun2' & Hroles2 & Hraw2 & _ & Heff2 & Hperm2 & _).
  { rewrite Hnil2. constructor. }
  rewrite Hrun2' in Hrun2. injection Hrun2 as <- <-.
  rewrite Hnil2 in Heff2. specialize (Hperm2 Hnil2).
  change (inherited σ1' [] own) with own in Heff2.
  assert (Role.roles σ2' !! length (Role.roles σ) = Some me1) as Hme1.
  { rewrite Hroles2, Hroles1. rewrite lookup_app_l.
    - by rewrite list_lookup_middle.
    - rewrite length_app. simpl. lia. }
  assert (Role.roles σ2' !! length (Role.roles σ1') = Some me2) as Hme2.
  { rewrite Hroles2. by rewrite list_lookup_middle. }
  assert (Role.permissions me1 = Role.permissions me2) as Hshared by congruence.
  assert (Role.arrays σ2' !! Role.permissions me1 = Some own) as Harr1
    by by rewrite Hshared.
  pose proof (lookup_lt_Some _ _ _ Heff2) as Hlt.
  eexists. split; [by apply (add_runs _ p σ2' me1 own)|].
  apply includes_false in Hnew. rewrite Hnew.
  assert (p ∈ own ++ [p]) as Hin.
  { apply elem_of_app. right. by apply list_elem_of_singleton. }
  split.
  - rewrite (has_unfold _ _ (own ++ [p])); [by rewrite has_in_entry|].
    unfold Role.effectivePermissions. cbn [Role.roles Role.arrays].
    rewrite Hme2. simpl. rewrite Hshared. by apply list_lookup_insert_eq.
  - rewrite (hasInRaw_unfold _ _ (own ++ [p])).
    + f_equal. rewrite hasInRaw_loop_decides. by apply bool_decide_eq_true.
    + unfold Role.rawPermissionsOf. cbn [Role.roles Role.arrays].
      rewrite Hme2. simpl. rewrite Hraw2, <- Hperm2, Hshared.
      by apply list_lookup_insert_eq.
Qed.

(** Witness of X18: two roles over the array holding user:voice. *)
Lemma shared_array_between_roles_witness :
  ("channel:quote:delete" ∉ ["user:voice"]) /\
  exists σ3 : Role.store,
    Role.add 0 "channel:quote:delete" Scenario.shared_after_second = Some σ3 /\
    Role.has 1 "channel:quote:delete" σ3 = Some (Return true) /\
    Role.hasInRaw 1 "channel:quote:delete" σ3 = Some true.
Proof.
  assert ("channel:quote:delete" ∉ ["user:voice"]) as Hnew by by_evaluation.
  split; [exact Hnew|].
  apply (shared_array_between_roles Scenario.kebabCase Scenario.first_sharer
           Scenario.second_sharer Scenario.shared_store Scenario.shared_after_first
           Scenario.shared_after_second 0 1 ["user:voice"] "channel:quote:delete");
    try reflexivity.
  exact Hnew.
Defined.

(** ** The fields that no mutation writes *)




(** ** Entries after the first wildcard entry *)

(** X20.  Entries after the first wildcard entry are never consulted: for
    a permission that is not literally an entry, [has] returns what the
    expression of the first entry with a * segment gives, so two roles whose
    lists agree up to that entry answer alike, whatever follows it.  With
    the entries user:* and channel:* in this order, channel:quote:delete is
    refused. *)
Theorem later_entries_never_consulted :
  (forall (this this' : loc) (σ σ' : Role.store) (before after after' : list string)
          (entry p : string),
      Role.effectivePermissions this σ = Some (before ++ entry :: after) ->
      Role.effectivePermissions this' σ' = Some (before ++ entry :: after') ->
      p ∉ before ++ entry :: after ->
      p ∉ before ++ entry :: after' ->
      Forall (fun e => wildcard_entry e = false) before ->
      wildcard_entry entry = true ->
      Role.has this p σ = Some (wildcard_test entry p) /\
      Role.has this' p σ' = Role.has this p σ) /\
  (forall (this : loc) (σ : Role.store),
      Role.effectivePermissions this σ = Some ["user:*"; "channel:*"] ->
      Role.has this "channel:quote:delete" σ = Some (Return false)).
Proof.
  split.
  - intros this this' σ σ' before after after' entry p Heff Heff' Hnot Hnot'
      Hbefore Hentry.
    assert (forall rest, p ∉ before ++ entry :: rest ->
              has_in (before ++ entry :: rest) p = wildcard_test entry p) as Hlist.
    { intros rest Hrest. unfold has_in. apply includes_false in Hrest.
      rewrite Hrest. by apply has_loop_first. }
    rewrite (has_unfold this σ _ p Heff), (has_unfold this' σ' _ p Heff').
    by rewrite !Hlist.
  - intros this σ Heff. rewrite (has_unfold this σ _ _ Heff).
    vm_compute. reflexivity.
Qed.

(** Witness of X20: a role holding user:voice, user:* and channel:*, a role
    holding user:voice and user:*, and a role holding the two wildcard
    entries alone. *)
Lemma later_entries_never_consulted_witness :
  (Role.effectivePermissions 0 Scenario.three_entries
     = Some (["user:voice"] ++ "user:*" :: ["channel:*"]) /\
   Role.effectivePermissions 0 Scenario.two_entries
     = Some (["user:voice"] ++ "user:*" :: []) /\
   Role.has 0 "channel:quote:delete" Scenario.three_entries = Some (Return false) /\
   Role.has 0 "channel:quote:delete" Scenario.two_entries
   = Role.has 0 "channel:quote:delete" Scenario.three_entries) /\
  (Role.effectivePermissions 0 Scenario.two_wildcards = Some ["user:*"; "channel:*"] /\
   Role.has 0 "channel:quote:delete" Scenario.two_wildcards = Some (Return false)).
Proof.
  destruct later_entries_never_consulted as [Hfirst Hexample].
  split.
  - split; [reflexivity|]. split; [reflexivity|].
    apply (Hfirst 0 0 Scenario.three_entries Scenario.two_entries ["user:voice"]
             ["channel:*"] [] "user:*" "channel:quote:delete").
    + reflexivity.
    + reflexivity.
    + by_evaluation.
    + by_evaluation.
    + repeat constructor.
    + reflexivity.
  - split; [reflexivity|].
    apply (Hexample 0 Scenario.two_wildcards). reflexivity.
Defined.
